(** * Tabular CVaR Q-learning: the value table of [q_learning/q_learning.py]

    Numbers are exact rationals ([Q], compared with [==]): the source computes
    in floating point, and every statement below is about the same formulas in
    exact arithmetic.  [Q]'s division is total ([x / 0 == 0]); the source
    divides by atoms past the first, by atom masses and by [gamma], and the
    statements in which the value of a quotient matters (round trip, mean,
    interpolation) assume a strictly increasing grid. *)

From Stdlib Require Import List ZArith QArith Qminmax Lia Lqa Bool.
Import ListNotations.
Open Scope Q_scope.

(** ** Python sequences and exceptions *)

Inductive exn : Type := IndexError | ValueError | AssertionError.

Inductive outcome (A : Type) : Type :=
| Ret (a : A)
| Raise (e : exn).
Arguments Ret {A} a.
Arguments Raise {A} e.

(** [l[i]] for a Python list or a one-dimensional array: indices [-len .. -1]
    count from the end, anything outside [-len .. len-1] raises. *)
Definition py_index {A : Type} (l : list A) (i : Z) : outcome A :=
  let n := Z.of_nat (length l) in
  let j := if (i <? 0)%Z then (n + i)%Z else i in
  if (j <? 0)%Z then Raise IndexError
  else match nth_error l (Z.to_nat j) with
       | Some a => Ret a
       | None => Raise IndexError
       end.

(** [l[i] = v] under the same indexing rule. *)
Fixpoint set_nth {A : Type} (l : list A) (i : nat) (v : A) : list A :=
  match l, i with
  | [], _ => []
  | _ :: t, O => v :: t
  | h :: t, S j => h :: set_nth t j v
  end.

Definition py_store {A : Type} (l : list A) (i : Z) (v : A) : outcome (list A) :=
  let n := Z.of_nat (length l) in
  let j := if (i <? 0)%Z then (n + i)%Z else i in
  if (j <? 0)%Z then Raise IndexError
  else if (j <? n)%Z then Ret (set_nth l (Z.to_nat j) v)
  else Raise IndexError.

Fixpoint zip_with {A B C : Type} (f : A -> B -> C) (l : list A) (m : list B) : list C :=
  match l, m with
  | a :: l', b :: m' => f a b :: zip_with f l' m'
  | _, _ => []
  end.

(** [x < y] on rationals as a test. *)
Definition Qltb (x y : Q) : bool := negb (Qle_bool y x).

(** ** The atom grid *)

(** [atom_p = atoms[1:] - atoms[:-1]]. *)
Definition atom_p (atoms : list Q) : list Q :=
  zip_with Qminus (tl atoms) (removelast atoms).

(** Consecutive atoms strictly increase. *)
Fixpoint increasing (l : list Q) : Prop :=
  match l with
  | a :: t => match t with
              | b :: _ => a < b /\ increasing t
              | [] => True
              end
  | [] => True
  end.

(** ** CVaR / quantile conversion *)

(** Modelled from the spec: [cvar_computation.yc_to_var] is imported from
    [util], which is not among the sources.  The spec gives it as
    [V[i] = (yC[i] - yC[i-1]) / mass[i]] with [yC[-1]] treated as 0, one
    output per entry of [yC]. *)
Definition yc_to_var (atoms yC : list Q) : list Q :=
  map (fun i => (nth i yC 0 - match i with O => 0 | S j => nth j yC 0 end)
                / nth i (atom_p atoms) 0)
      (seq 0 (length yC)).

(** Running sums [acc + x0, acc + x0 + x1, ...]. *)
Fixpoint cumsum_from (acc : Q) (l : list Q) : list Q :=
  match l with
  | [] => []
  | x :: t => (acc + x) :: cumsum_from (acc + x) t
  end.

(** Modelled from the spec: the CVaR envelope re-derived from a quantile
    sequence, "cumulative sum of mass*V".  No source function computes it. *)
Definition var_to_yc (atoms V : list Q) : list Q :=
  cumsum_from 0 (zip_with Qmult (atom_p atoms) V).

(** [np.dot] of two one-dimensional arrays; shapes must agree. *)
Fixpoint dot_from (acc : Q) (l m : list Q) : Q :=
  match l, m with
  | a :: l', b :: m' => dot_from (acc + a * b) l' m'
  | _, _ => acc
  end.

Definition np_dot (l m : list Q) : outcome Q :=
  if Nat.eqb (length l) (length m) then Ret (dot_from 0 l m) else Raise ValueError.

(** ** MarkovState *)

Record MarkovState : Type := mkMarkovState { V : list Q; yC : list Q }.

(** [MarkovState.__init__]: [np.zeros(NB_ATOMS)] twice. *)
Definition MarkovState_init (NB_ATOMS : nat) : MarkovState :=
  mkMarkovState (repeat 0 NB_ATOMS) (repeat 0 NB_ATOMS).

(** Pointwise [==] of rational sequences. *)
Definition Qlist_eq (l m : list Q) : Prop := Forall2 Qeq l m.


(** ** Error and state-and-error sequencing

    A query either returns or raises ([outcome]).  A method that mutates the
    table runs in [M]: it maps the table to an outcome and the table it
    leaves behind; an exception keeps whatever was written before it. *)

Definition obind {A B : Type} (o : outcome A) (k : A -> outcome B) : outcome B :=
  match o with
  | Ret a => k a
  | Raise e => Raise e
  end.

Notation "'let?' x := o 'in' k" := (obind o (fun x => k))
  (at level 10, x name, o at level 100, k at level 200).

Fixpoint omap {A B : Type} (f : A -> outcome B) (l : list A) : outcome (list B) :=
  match l with
  | [] => Ret []
  | a :: t => let? b := f a in let? bs := omap f t in Ret (b :: bs)
  end.

(** [np.max] of a list: the empty list raises. *)
Definition np_max (l : list Q) : outcome Q :=
  match l with
  | [] => Raise ValueError
  | h :: t => Ret (fold_left Qmax t h)
  end.

(** [np.argmax] of a list: the first index holding the maximum. *)
Fixpoint argmax_from (best : Q) (besti i : nat) (l : list Q) : nat :=
  match l with
  | [] => besti
  | h :: t => if Qltb best h then argmax_from h i (S i) t
              else argmax_from best besti (S i) t
  end.

Definition np_argmax (l : list Q) : outcome Z :=
  match l with
  | [] => Raise ValueError
  | h :: t => Ret (Z.of_nat (argmax_from h 0 1 t))
  end.

(** [enumerate(l)]. *)
Definition enumerate {A : Type} (l : list A) : list (nat * A) :=
  combine (seq 0 (length l)) l.

(** ** The grid world, as far as the table uses it

    [cliffwalker] is not among the sources: a state is a pair of
    coordinates read as [x.y] and [x.x], a transition carries [state] and
    [reward]. *)

Record State : Type := mkState { st_y : Z; st_x : Z }.

Definition State_eqb (p q : State) : bool :=
  (st_y p =? st_y q)%Z && (st_x p =? st_x q)%Z.

Record Transition : Type := mkTransition { t_state : State; t_reward : Q }.

(** [self.Q]: indexed [y, x, a], each cell its own [MarkovState]. *)
Definition Table : Type := list (list (list MarkovState)).

Definition M (A : Type) : Type := Table -> outcome A * Table.

Definition ret {A : Type} (a : A) : M A := fun T => (Ret a, T).

Definition raise {A : Type} (e : exn) : M A := fun T => (Raise e, T).

Definition bind {A B : Type} (m : M A) (k : A -> M B) : M B :=
  fun T => match m T with
           | (Ret a, T') => k a T'
           | (Raise e, T') => (Raise e, T')
           end.

Notation "x <- m ;; k" := (bind m (fun x => k))
  (at level 61, m at next level, right associativity).
Notation "m ;;; k" := (bind m (fun _ => k))
  (at level 61, right associativity).

(** A read-only query run inside a mutating method. *)
Definition query {A : Type} (f : Table -> outcome A) : M A := fun T => (f T, T).

(** [for b in l: body(b)]. *)
Fixpoint for_each {B : Type} (l : list B) (body : B -> M unit) : M unit :=
  match l with
  | [] => ret tt
  | b :: t => body b ;;; for_each t body
  end.

(** [self.Q[y, x, a]]. *)
Definition Q_get (T : Table) (y x a : Z) : outcome MarkovState :=
  let? plane := py_index T y in
  let? line := py_index plane x in
  py_index line a.

(** The table in which the object at [self.Q[y, x, a]] has become [ms]. *)
Definition Q_set (T : Table) (y x a : Z) (ms : MarkovState) : outcome Table :=
  let? plane := py_index T y in
  let? line := py_index plane x in
  let? line' := py_store line a ms in
  let? plane' := py_store plane x line' in
  py_store T y plane'.

(** [self.Q[x.y, x.x, a].V[i]] read, and [self.Q[x.y, x.x, a].V[i] = v]. *)
Definition read_V (x : State) (a : Z) (i : Z) : M Q :=
  query (fun T => let? ms := Q_get T (st_y x) (st_x x) a in py_index (V ms) i).

Definition read_yC (x : State) (a : Z) (i : Z) : M Q :=
  query (fun T => let? ms := Q_get T (st_y x) (st_x x) a in py_index (yC ms) i).

Definition commit (o : outcome Table) : M unit :=
  fun T => match o with
           | Ret T' => (Ret tt, T')
           | Raise e => (Raise e, T)
           end.

Definition store_V (x : State) (a : Z) (i : Z) (v : Q) : M unit :=
  fun T => commit (let? ms := Q_get T (st_y x) (st_x x) a in
                   let? V' := py_store (V ms) i v in
                   Q_set T (st_y x) (st_x x) a (mkMarkovState V' (yC ms))) T.

Definition store_yC (x : State) (a : Z) (i : Z) (v : Q) : M unit :=
  fun T => commit (let? ms := Q_get T (st_y x) (st_x x) a in
                   let? yC' := py_store (yC ms) i v in
                   Q_set T (st_y x) (st_x x) a (mkMarkovState (V ms) yC')) T.

(** ** The module's constants and the two classes *)

Section Model.

(** [NB_ATOMS], [atoms = spaced_atoms(NB_ATOMS, SPACING, LOG)] ([spaced_atoms]
    is imported from [util] and not among the sources), [beta], [eps], and
    [gamma] from [util.constants]. *)
Variable NB_ATOMS : nat.
Variable atoms : list Q.
Variables beta gamma eps : Q.

(** [world.ACTIONS]. *)
Variable ACTIONS : list Z.

(** *** MarkovState queries *)

(** The loop variable after [for i in range(start, start + len(l))] that
    breaks at the first [alpha < l[i - start]]; [cur] is its value before the
    loop and while no atom has been visited. *)
Fixpoint scan_atoms (alpha : Q) (l : list Q) (i cur : nat) : nat :=
  match l with
  | [] => cur
  | atom :: t => if Qltb alpha atom then i else scan_atoms alpha t (S i) i
  end.

Definition dist_from_yc (ms : MarkovState) : list Q := yc_to_var atoms (yC ms).

Definition expected_value (ms : MarkovState) : outcome Q :=
  let var := dist_from_yc ms in
  np_dot (atom_p atoms) var.

Definition yc_alpha (ms : MarkovState) (alpha : Q) : outcome Q :=
  let i := Z.of_nat (scan_atoms alpha (tl atoms) 1 0) in
  let? lo := py_index atoms (i - 1) in
  let? hi := py_index atoms i in
  let alpha_portion := (alpha - lo) / (hi - lo) in
  if (i =? 1)%Z then
    let? y := py_index (yC ms) (i - 1) in
    Ret (alpha_portion * y)
  else
    let? y2 := py_index (yC ms) (i - 2) in
    let? y1 := py_index (yC ms) (i - 1) in
    Ret (y2 + alpha_portion * (y1 - y2)).

(** The loop of [e_min_s] over [zip(atom_p, self.V)], [e_min] carried. *)
Fixpoint e_min_loop (s e_min : Q) (ps vs : list Q) : Q :=
  match ps, vs with
  | p :: ps', v :: vs' =>
      if Qltb v s then e_min_loop s (e_min + p * (v - s)) ps' vs'
      else e_min
  | _, _ => e_min
  end.

Definition e_min_s (ms : MarkovState) (s : Q) : Q :=
  e_min_loop s 0 (atom_p atoms) (V ms).

(** *** ActionValueFunction *)

(** [ActionValueFunction.__init__]: a fresh [MarkovState] in every cell. *)
Definition ActionValueFunction_init (height width : nat) : Table :=
  repeat (repeat (repeat (MarkovState_init NB_ATOMS) (length ACTIONS)) width) height.

Definition sup_q (T : Table) (x : State) : outcome (list Q) :=
  let? yc := omap (fun i =>
                     let? col := omap (fun a =>
                                         let? ms := Q_get T (st_y x) (st_x x) a in
                                         py_index (yC ms) (Z.of_nat i))
                                      ACTIONS in
                     np_max col)
                  (seq 0 NB_ATOMS) in
  Ret (yc_to_var atoms yc).

(** One pass of the inner loop body (lines 40-47) for target value [v],
    atom index [i] and atom [atom]. *)
Definition update_step (x : State) (a : Z) (r v : Q) (i : nat) (atom : Q) : M unit :=
  let iz := Z.of_nat i in
  V0 <- read_V x a iz ;;
  yC0 <- read_yC x a iz ;;
  cur <- read_V x a iz ;;
  (if Qle_bool (r + gamma * v) cur
   then old <- read_V x a iz ;; store_V x a iz (old + beta * (1 - 1 / atom))
   else old <- read_V x a iz ;; store_V x a iz (old + beta)) ;;;
  store_yC x a iz ((1 - beta) * yC0 + beta * (atom * V0 + Qmin 0 (r + gamma * v - V0))).

(** The double loop of [update]: targets outside, atoms inside. *)
Definition update_loop (x : State) (a : Z) (r : Q) (V_x : list Q) : M unit :=
  for_each V_x (fun v =>
    for_each (enumerate (tl atoms)) (fun ia =>
      update_step x a r v (fst ia) (snd ia))).

(** The closing [assert]. *)
Definition update_assert (x : State) (a : Z) : M unit :=
  first <- read_V x a 0 ;;
  last <- read_V x a (-1) ;;
  if Qle_bool first last then ret tt else raise AssertionError.

Definition update (x : State) (a : Z) (x_ : State) (r : Q) : M unit :=
  V_x <- query (fun T => sup_q T x_) ;;
  update_loop x a r V_x ;;;
  update_assert x a.

Definition next_action_alpha (T : Table) (x : State) (alpha : Q) : outcome Z :=
  let? yc := omap (fun a => let? ms := Q_get T (st_y x) (st_x x) a in yc_alpha ms alpha)
                  ACTIONS in
  np_argmax yc.

Definition next_action_s (T : Table) (x : State) (s : Q) : outcome Z :=
  let? yc := omap (fun a => let? ms := Q_get T (st_y x) (st_x x) a in Ret (e_min_s ms s))
                  ACTIONS in
  np_argmax yc.

Definition var_alpha (T : Table) (x : State) (a : Z) (alpha : Q) : outcome Q :=
  let i := Z.of_nat (scan_atoms alpha atoms 0 0) in
  let? ms := Q_get T (st_x x) (st_y x) a in
  py_index (V ms) (i - 1).

(** *** The learning loop *)

(** The random sources: [np.random.random], [np.random.choice] and the
    environment's [sample_transition] draw from a generator state. *)
Variable Rng : Type.
Variable np_random : Rng -> Q * Rng.
Variable np_choice : list Z -> Rng -> Z * Rng.

Record World : Type := mkWorld {
  height : nat;
  width : nat;
  initial_state : State;
  goal_states : list State;
  sample_transition : State -> Z -> Rng -> Transition * Rng
}.

Definition eps_greedy (a : Z) (action_space : list Z) (g : Rng) : outcome Z * Rng :=
  let (u, g1) := np_random g in
  if Qltb u eps then
    match action_space with
    | [] => (Raise ValueError, g1)
    | _ => let (c, g2) := np_choice action_space g1 in (Ret c, g2)
    end
  else (Ret a, g1).

(** The variables of one episode at the head of the inner [while]. *)
Record Config : Type := mkConfig {
  cfg_Q : Table;
  cfg_rng : Rng;
  cfg_x : State;
  cfg_s : Q
}.

(** Lines 138-139: the first action and the starting risk budget. *)
Definition episode_start (w : World) (alpha : Q) (T : Table) (g : Rng) : outcome Config :=
  let x := initial_state w in
  let? greedy := next_action_alpha T x alpha in
  match eps_greedy greedy ACTIONS g with
  | (Raise e, _) => Raise e
  | (Ret a, g1) =>
      let? s := var_alpha T x a alpha in
      Ret (mkConfig T g1 x s)
  end.

(** Lines 142-149: one iteration of the inner [while].  An exception leaves
    [q_learning] altogether, so nothing of the configuration survives it. *)
Definition episode_step (w : World) (c : Config) : outcome Config :=
  let? greedy := next_action_s (cfg_Q c) (cfg_x c) (cfg_s c) in
  match eps_greedy greedy ACTIONS (cfg_rng c) with
  | (Raise e, _) => Raise e
  | (Ret a, g1) =>
      let (t, g2) := sample_transition w (cfg_x c) a g1 in
      match update (cfg_x c) a (t_state t) (t_reward t) (cfg_Q c) with
      | (Raise e, _) => Raise e
      | (Ret _, T') =>
          Ret (mkConfig T' g2 (t_state t) ((cfg_s c - t_reward t) / gamma))
      end
  end.

(** The inner [while]: [fuel] is [max_episode_length - i]. *)
Fixpoint episode_loop (w : World) (fuel : nat) (c : Config) : outcome Config :=
  match fuel with
  | O => Ret c
  | S n =>
      if existsb (State_eqb (cfg_x c)) (goal_states w) then Ret c
      else let? c' := episode_step w c in episode_loop w n c'
  end.

Definition episode (w : World) (alpha : Q) (max_episode_length : nat)
  (T : Table) (g : Rng) : outcome Config :=
  let? c := episode_start w alpha T g in
  episode_loop w max_episode_length c.

(** The outer [while]: [n] is [max_episodes - e]. *)
Fixpoint episodes (w : World) (alpha : Q) (max_episode_length n : nat)
  (T : Table) (g : Rng) : outcome (Table * Rng) :=
  match n with
  | O => Ret (T, g)
  | S n' =>
      let? c := episode w alpha max_episode_length T g in
      episodes w alpha max_episode_length n' (cfg_Q c) (cfg_rng c)
  end.

Definition q_learning (w : World) (alpha : Q) (max_episodes max_episode_length : nat)
  (g : Rng) : outcome (Table * Rng) :=
  episodes w alpha max_episode_length max_episodes
           (ActionValueFunction_init (height w) (width w)) g.

End Model.

Arguments mkWorld {Rng}.
Arguments height {Rng}.
Arguments width {Rng}.
Arguments initial_state {Rng}.
Arguments goal_states {Rng}.
Arguments sample_transition {Rng}.
Arguments mkConfig {Rng}.
Arguments cfg_Q {Rng}.
Arguments cfg_rng {Rng}.
Arguments cfg_x {Rng}.
Arguments cfg_s {Rng}.
Arguments eps_greedy eps {Rng}.
Arguments episode_start atoms eps ACTIONS {Rng}.
Arguments episode_step NB_ATOMS atoms beta gamma eps ACTIONS {Rng}.
Arguments episode_loop NB_ATOMS atoms beta gamma eps ACTIONS {Rng}.
Arguments episode NB_ATOMS atoms beta gamma eps ACTIONS {Rng}.
Arguments episodes NB_ATOMS atoms beta gamma eps ACTIONS {Rng}.
Arguments q_learning NB_ATOMS atoms beta gamma eps ACTIONS {Rng}.

(** ** Vocabulary of the statements *)

(** The finite differences of [yc_to_var], threaded through the lists the
    way a loop carrying the previous entry computes them. *)
Fixpoint diffs_from (last : Q) (mass ys : list Q) : list Q :=
  match mass, ys with
  | p :: mass', y :: ys' => (y - last) / p :: diffs_from y mass' ys'
  | _, _ => []
  end.

(** Consecutive entries never decrease. *)
Fixpoint nondecreasing (l : list Q) : Prop :=
  match l with
  | a :: t => match t with
              | b :: _ => a <= b /\ nondecreasing t
              | [] => True
              end
  | [] => True
  end.

(** The spec's reading of [e_min_s]: [mass[i] * (V[i] - s)] summed over
    every atom with [V[i] < s], wherever it stands in the sequence. *)
Fixpoint lower_partial_sum (s : Q) (ps vs : list Q) : Q :=
  match ps, vs with
  | p :: ps', v :: vs' =>
      (if Qltb v s then p * (v - s) else 0) + lower_partial_sum s ps' vs'
  | _, _ => 0
  end.

(** The position a Python index denotes in a sequence of length [n]. *)
Definition py_pos (n : nat) (i : Z) : option nat :=
  let j := if (i <? 0)%Z then (Z.of_nat n + i)%Z else i in
  if (j <? 0)%Z then None
  else if (j <? Z.of_nat n)%Z then Some (Z.to_nat j) else None.

(** What lines 40-47 do to the pair [(V[i], yC[i])] for one target value
    [v]: both new entries are computed from the pair as it was read. *)
Definition atom_step (beta gamma atom r v : Q) (p : Q * Q) : Q * Q :=
  (if Qle_bool (r + gamma * v) (fst p)
   then fst p + beta * (1 - 1 / atom)
   else fst p + beta,
   (1 - beta) * snd p + beta * (atom * fst p + Qmin 0 (r + gamma * v - fst p))).

(** [atom_step] for each target in turn, each step starting from the pair
    the previous one left. *)
Definition atom_run (beta gamma atom r : Q) (targets : list Q) (p : Q * Q) : Q * Q :=
  fold_left (fun p v => atom_step beta gamma atom r v p) targets p.

(** A computation that never raises [AssertionError]. *)
Definition quiet {A : Type} (m : M A) : Prop :=
  forall T e T', m T = (Raise e, T') -> e <> AssertionError.

(** The same for a query. *)
Definition oquiet {A : Type} (o : outcome A) : Prop :=
  forall e, o = Raise e -> e <> AssertionError.

(** *** Small instances used in the examples *)

(** Two atoms on the linear grid, one state, one action, an untouched table. *)
Definition atoms2 : list Q := [0; 1#2; 1].
Definition origin : State := mkState 0 0.
Definition table_1x1 : Table := ActionValueFunction_init 2 [0%Z] 1 1.

(** The table of the script's own run: [GridWorld(4, 6)] with four actions,
    [NB_ATOMS = 4] on the linear grid, and its bottom-left state. *)
Definition atoms4 : list Q := [0; 1#4; 1#2; 3#4; 1].
Definition ACTIONS4 : list Z := [0; 1; 2; 3]%Z.
Definition table_4x6 : Table := ActionValueFunction_init 4 ACTIONS4 4 6.
Definition bottom_left : State := mkState 3 0.

(** A one-row world with a fixed generator: every draw of
    [np.random.random] is 1, so the greedy action is always taken, and every
    transition moves to the goal cell [(0, 1)] with reward [-1]. *)
Definition still_random (g : nat) : Q * nat := (1, S g).
Definition first_choice (l : list Z) (g : nat) : Z * nat := (hd 0%Z l, S g).
Definition table_1x2 : Table := ActionValueFunction_init 2 [0%Z] 1 2.
Definition corridor : World nat :=
  mkWorld 1 2 origin [mkState 0 1]
          (fun _ _ g => (mkTransition (mkState 0 1) (-(1)), S g)).

(** A one-row world of three cells walked left to right, the goal at the
    right end; leaving column [x] is rewarded [-(x + 1)].  Its table has one
    action and two atoms, and quantiles [3, 4] already learnt at the start. *)
Definition walk : World nat :=
  mkWorld 1 3 origin [mkState 0 2]
          (fun s _ g => (mkTransition (mkState 0 (st_x s + 1))
                                      (inject_Z (- (st_x s + 1))), S g)).
Definition table_walk : Table :=
  [[[mkMarkovState [3; 4] [0; 0]]; [MarkovState_init 2]; [MarkovState_init 2]]].

(** A table whose four cells and four buckets all differ. *)
Definition table_marked : Table :=
  [[[mkMarkovState [11; 12; 13; 14] [0; 0; 0; 0]];
    [mkMarkovState [21; 22; 23; 24] [0; 0; 0; 0]]];
   [[mkMarkovState [31; 32; 33; 34] [0; 0; 0; 0]];
    [mkMarkovState [41; 42; 43; 44] [0; 0; 0; 0]]]].

(** ** The risk budget along an episode *)

Section Budget.

Variable NB_ATOMS : nat.
Variable atoms : list Q.
Variables beta gamma eps : Q.
Variable ACTIONS : list Z.
Variable Rng : Type.
Variable np_random : Rng -> Q * Rng.
Variable np_choice : list Z -> Rng -> Z * Rng.
Variable w : World Rng.

(** The configuration lines 137-139 hand to the inner loop: the table and
    the state untouched, the action drawn around [next_action_alpha], and
    [s] the [var_alpha] of that action. *)
Definition starts_at (alpha : Q) (T : Table) (g : Rng) (c0 : Config Rng) : Prop :=
  exists greedy a g1 s0,
    next_action_alpha atoms ACTIONS T (initial_state w) alpha = Ret greedy /\
    eps_greedy eps np_random np_choice greedy ACTIONS g = (Ret a, g1) /\
    var_alpha atoms T (initial_state w) a alpha = Ret s0 /\
    c0 = mkConfig T g1 (initial_state w) s0.

(** [budget_links k c c']: [c'] is reached from [c] by exactly [k]
    completed iterations of the inner loop.  Each link leaves a state that is
    no goal state, takes an action around [next_action_s], samples a
    transition with reward [r], updates the table, and hands on the new
    table, the successor state and [(s - r) / gamma]. *)
Inductive budget_links : nat -> Config Rng -> Config Rng -> Prop :=
| links_none (c : Config Rng) : budget_links 0 c c
| links_step (k : nat) (c : Config Rng) (greedy a : Z) (g1 g2 : Rng) (t : Transition)
    (T' : Table) (c' : Config Rng) :
    existsb (State_eqb (cfg_x c)) (goal_states w) = false ->
    next_action_s atoms ACTIONS (cfg_Q c) (cfg_x c) (cfg_s c) = Ret greedy ->
    eps_greedy eps np_random np_choice greedy ACTIONS (cfg_rng c) = (Ret a, g1) ->
    sample_transition w (cfg_x c) a g1 = (t, g2) ->
    update NB_ATOMS atoms beta gamma ACTIONS (cfg_x c) a (t_state t) (t_reward t)
           (cfg_Q c) = (Ret tt, T') ->
    budget_links k (mkConfig T' g2 (t_state t) ((cfg_s c - t_reward t) / gamma)) c' ->
    budget_links (S k) c c'.

End Budget.

(** ** Further functions and vocabulary *)

(** [q_to_v_exp]: [expected_value()] of every cell in [np.ndindex] order,
    reshaped to [Q.Q.shape], then [np.max] over the last axis.  That axis has
    length [len(world.ACTIONS)] (line 27) also where a row or column count of
    0 leaves the nested lists no line to show it, so its length is read from
    [ACTIONS]: the maximum over an axis of length 0 raises [ValueError],
    whatever the other axes are.  Every exception on the way is a
    [ValueError]. *)
Definition q_to_v_exp (atoms : list Q) (ACTIONS : list Z) (T : Table)
  : outcome (list (list Q)) :=
  let? E := omap (omap (omap (expected_value atoms))) T in
  match ACTIONS with
  | [] => Raise ValueError
  | _ :: _ => omap (omap np_max) E
  end.

(** The sum of a sequence. *)
Definition Qsum (l : list Q) : Q := fold_right Qplus 0 l.

(** A cell with [NB] quantile and [NB] CVaR entries, and a table of [h] rows,
    [w] columns and [n] actions of such cells. *)
Definition cell_shaped (NB : nat) (ms : MarkovState) : Prop :=
  length (V ms) = NB /\ length (yC ms) = NB.

Definition shaped (NB h w n : nat) (T : Table) : Prop :=
  length T = h /\
  Forall (fun plane =>
            length plane = w /\
            Forall (fun line => length line = n /\ Forall (cell_shaped NB) line) plane)
         T.

(** The cell stored at a position, and the position [self.Q[y, x, a]]
    denotes. *)
Definition cell_at (T : Table) (j k l : nat) : option MarkovState :=
  match nth_error T j with
  | Some plane => match nth_error plane k with
                  | Some line => nth_error line l
                  | None => None
                  end
  | None => None
  end.

Definition Q_pos (T : Table) (y x a : Z) : option (nat * nat * nat) :=
  match py_pos (length T) y with
  | Some j =>
      match nth_error T j with
      | Some plane =>
          match py_pos (length plane) x with
          | Some k =>
              match nth_error plane k with
              | Some line =>
                  match py_pos (length line) a with
                  | Some l => Some (j, k, l)
                  | None => None
                  end
              | None => None
              end
          | None => None
          end
      | None => None
      end
  | None => None
  end.

(** A property of the table that a computation keeps, whatever its outcome. *)
Definition keeps {A : Type} (P : Table -> Prop) (m : M A) : Prop :=
  forall T o T', P T -> m T = (o, T') -> P T'.

(** The table with the cell at a position replaced. *)
Definition Q_put (T : Table) (j k l : nat) (ms : MarkovState) : Table :=
  match nth_error T j with
  | Some plane =>
      match nth_error plane k with
      | Some line => set_nth T j (set_nth plane k (set_nth line l ms))
      | None => T
      end
  | None => T
  end.

(** [T'] is [T], or [T] with the cell [self.Q[y, x, a]] replaced by one with
    as many entries. *)
Definition rewrites_cell (y x a : Z) (T T' : Table) : Prop :=
  T' = T \/
  exists j k l ms ms',
    Q_pos T y x a = Some (j, k, l) /\
    cell_at T j k l = Some ms /\
    length (V ms') = length (V ms) /\
    length (yC ms') = length (yC ms) /\
    T' = Q_put T j k l ms'.

(** [i] is a valid Python index into a sequence of length [n]. *)
Definition indexes (n : nat) (i : Z) : Prop := (- Z.of_nat n <= i < Z.of_nat n)%Z.

Definition indexesb (n : nat) (i : Z) : bool :=
  ((- Z.of_nat n <=? i) && (i <? Z.of_nat n))%Z.

(** ** Sequences *)

Lemma length_zip_with {A B C : Type} (f : A -> B -> C) l m :
  length (zip_with f l m) = Nat.min (length l) (length m).
Proof.
  revert m; induction l as [|a l IH]; intros [|b m]; simpl; auto.
Qed.

Lemma length_removelast {A : Type} (l : list A) :
  length (removelast l) = pred (length l).
Proof.
  induction l as [|a [|b t] IH]; try reflexivity.
  change (S (length (removelast (b :: t))) = S (length t)).
  rewrite IH. reflexivity.
Qed.

Lemma length_atom_p atoms : length (atom_p atoms) = pred (length atoms).
Proof.
  unfold atom_p. rewrite length_zip_with, length_removelast.
  destruct atoms as [|a t]; simpl; lia.
Qed.

Lemma atom_p_cons a b t : atom_p (a :: b :: t) = (b - a) :: atom_p (b :: t).
Proof. reflexivity. Qed.

Lemma increasing_atom_p_pos atoms :
  increasing atoms -> Forall (fun p => 0 < p) (atom_p atoms).
Proof.
  induction atoms as [|a t IH]; [constructor|].
  destruct t as [|b t]; [constructor|].
  intros [Hab Ht]. rewrite atom_p_cons. constructor; [lra | exact (IH Ht)].
Qed.

Lemma nth_atom_p atoms i :
  (S i < length atoms)%nat ->
  nth i (atom_p atoms) 0 = nth (S i) atoms 0 - nth i atoms 0.
Proof.
  revert i; induction atoms as [|a t IH]; intros i Hi; [simpl in Hi; lia|].
  destruct t as [|b t]; [simpl in Hi; lia|].
  rewrite atom_p_cons. destruct i as [|i]; [reflexivity|].
  change (nth i (atom_p (b :: t)) 0 = nth (S i) (b :: t) 0 - nth i (b :: t) 0).
  apply IH. simpl in *; lia.
Qed.

Lemma Qlist_eq_length l m : Qlist_eq l m -> length l = length m.
Proof. induction 1; simpl; congruence. Qed.

Lemma Qlist_eq_nth l m i : Qlist_eq l m -> nth i l 0 == nth i m 0.
Proof.
  intros H; revert i; induction H; intros [|i]; simpl; auto; reflexivity.
Qed.

(** ** CVaR / quantile conversion: round trip and mean *)

Lemma yc_to_var_from (massAll yCAll : list Q) :
  forall ys mass last k,
    (forall j, (j < length ys)%nat -> nth (k + j) yCAll 0 = nth j ys 0) ->
    (forall j, (j < length ys)%nat -> nth (k + j) massAll 0 = nth j mass 0) ->
    (length ys <= length mass)%nat ->
    match k with O => 0 | S j => nth j yCAll 0 end = last ->
    map (fun i => (nth i yCAll 0 - match i with O => 0 | S j => nth j yCAll 0 end)
                  / nth i massAll 0)
        (seq k (length ys))
    = diffs_from last mass ys.
Proof.
  induction ys as [|y ys IH]; intros mass last k Hy Hm Hlen Hlast.
  - destruct mass; reflexivity.
  - destruct mass as [|p mass]; [simpl in Hlen; lia|].
    simpl. f_equal.
    + rewrite Hlast.
      pose proof (Hy O ltac:(simpl; lia)) as E1.
      pose proof (Hm O ltac:(simpl; lia)) as E2.
      rewrite Nat.add_0_r in E1, E2. simpl in E1, E2. rewrite E1, E2. reflexivity.
    + apply IH.
      * intros j Hj. specialize (Hy (S j) ltac:(simpl; lia)).
        rewrite Nat.add_succ_r in Hy. exact Hy.
      * intros j Hj. specialize (Hm (S j) ltac:(simpl; lia)).
        rewrite Nat.add_succ_r in Hm. exact Hm.
      * simpl in Hlen; lia.
      * specialize (Hy O ltac:(simpl; lia)). rewrite Nat.add_0_r in Hy. exact Hy.
Qed.

Lemma yc_to_var_diffs atoms ys :
  (length ys <= length (atom_p atoms))%nat ->
  yc_to_var atoms ys = diffs_from 0 (atom_p atoms) ys.
Proof.
  intros H. unfold yc_to_var.
  apply yc_to_var_from; auto.
Qed.

Lemma length_yc_to_var atoms ys : length (yc_to_var atoms ys) = length ys.
Proof. unfold yc_to_var. rewrite length_map, length_seq. reflexivity. Qed.

Lemma cumsum_diffs ys :
  forall mass last acc,
    acc == last ->
    Forall (fun p => 0 < p) mass ->
    (length ys <= length mass)%nat ->
    Qlist_eq (cumsum_from acc (zip_with Qmult mass (diffs_from last mass ys))) ys.
Proof.
  induction ys as [|y ys IH]; intros mass last acc Hacc Hpos Hlen.
  - destruct mass; constructor.
  - destruct mass as [|p mass]; [simpl in Hlen; lia|].
    inversion Hpos as [|? ? Hp Hpos']; subst.
    assert (Hstep : acc + p * ((y - last) / p) == y).
    { rewrite Hacc. field. intros E. rewrite E in Hp. lra. }
    simpl. constructor; [exact Hstep|].
    apply IH; [exact Hstep | exact Hpos' | simpl in Hlen; lia].
Qed.

Lemma last_cons_default (y : Q) (ys : list Q) (d d' : Q) :
  List.last (y :: ys) d = List.last (y :: ys) d'.
Proof.
  revert y; induction ys as [|z ys IH]; intros y; [reflexivity|].
  change (List.last (z :: ys) d = List.last (z :: ys) d'). apply IH.
Qed.

Lemma dot_diffs ys :
  forall mass last acc,
    acc == last ->
    Forall (fun p => 0 < p) mass ->
    length ys = length mass ->
    dot_from acc mass (diffs_from last mass ys) == List.last ys last.
Proof.
  induction ys as [|y ys IH]; intros mass last acc Hacc Hpos Hlen.
  - destruct mass; simpl; exact Hacc.
  - destruct mass as [|p mass]; [simpl in Hlen; lia|].
    inversion Hpos as [|? ? Hp Hpos']; subst.
    assert (Hstep : acc + p * ((y - last) / p) == y).
    { rewrite Hacc. field. intros E. rewrite E in Hp. lra. }
    simpl diffs_from. simpl dot_from.
    rewrite (IH mass y _ Hstep Hpos' ltac:(simpl in Hlen; lia)).
    destruct ys as [|z ys]; [reflexivity|].
    change (List.last (y :: z :: ys) last) with (List.last (z :: ys) last).
    rewrite (last_cons_default z ys y last). reflexivity.
Qed.

(** C4. Over a strictly increasing atom grid with [K+1] atoms, finite
    differencing a [yC] sequence of length [K] with [yc_to_var] and summing
    [mass[i] * V[i]] cumulatively gives back [yC], entry by entry. *)
Theorem yc_to_var_round_trip (atoms ys : list Q) :
  increasing atoms ->
  length atoms = S (length ys) ->
  Qlist_eq (var_to_yc atoms (yc_to_var atoms ys)) ys.
Proof.
  intros Hinc Hlen.
  assert (Hm : length (atom_p atoms) = length ys)
    by (rewrite length_atom_p, Hlen; reflexivity).
  unfold var_to_yc. rewrite yc_to_var_diffs by lia.
  apply cumsum_diffs; [reflexivity | apply increasing_atom_p_pos, Hinc | lia].
Qed.

Lemma yc_to_var_round_trip_witness :
  Qlist_eq (var_to_yc [0; 1#4; 1#2; 1] (yc_to_var [0; 1#4; 1#2; 1] [-(2); -(3); 5#7]))
           [-(2); -(3); 5#7].
Proof.
  apply yc_to_var_round_trip.
  - simpl. repeat split; reflexivity.
  - reflexivity.
Defined.

(** C10. Over a strictly increasing grid with [K+1 >= 2] atoms,
    [expected_value()] returns the last stored CVaR entry [yC[K-1]], whatever
    the stored [V] is. *)
Theorem expected_value_is_last_yC (atoms : list Q) (ms : MarkovState) (K : nat) :
  increasing atoms ->
  length atoms = S K ->
  length (yC ms) = K ->
  (0 < K)%nat ->
  exists e y,
    expected_value atoms ms = Ret e /\
    nth_error (yC ms) (K - 1) = Some y /\
    e == y /\
    forall V', expected_value atoms (mkMarkovState V' (yC ms)) = Ret e.
Proof.
  intros Hinc Hlen HK Hpos.
  assert (Hm : length (atom_p atoms) = length (yC ms))
    by (rewrite length_atom_p, Hlen, HK; reflexivity).
  assert (Hrun : forall V', expected_value atoms (mkMarkovState V' (yC ms))
                            = Ret (dot_from 0 (atom_p atoms) (yc_to_var atoms (yC ms)))).
  { intros V'. unfold expected_value, dist_from_yc, np_dot. simpl.
    rewrite length_yc_to_var, Hm, Nat.eqb_refl. reflexivity. }
  exists (dot_from 0 (atom_p atoms) (yc_to_var atoms (yC ms))), (List.last (yC ms) 0).
  split; [destruct ms as [V0 yC0]; exact (Hrun V0)|].
  split.
  - destruct (yC ms) as [|y0 ys] eqn:E using rev_ind; [simpl in HK; lia|].
    rewrite last_last. rewrite length_app in HK. simpl in HK.
    rewrite nth_error_app2 by lia.
    replace (K - 1 - length ys)%nat with O by lia. reflexivity.
  - split; [|exact Hrun].
    rewrite yc_to_var_diffs by lia.
    apply dot_diffs; [reflexivity | apply increasing_atom_p_pos, Hinc | lia].
Qed.

Lemma expected_value_is_last_yC_witness :
  exists e y,
    expected_value [0; 1#4; 1#2; 1] (mkMarkovState [7; 8; 9] [-(2); -(3); 5#7]) = Ret e /\
    nth_error [-(2); -(3); 5#7] (3 - 1) = Some y /\
    e == y /\
    forall V', expected_value [0; 1#4; 1#2; 1] (mkMarkovState V' [-(2); -(3); 5#7]) = Ret e.
Proof.
  apply (expected_value_is_last_yC [0; 1#4; 1#2; 1]
           (mkMarkovState [7; 8; 9] [-(2); -(3); 5#7]) 3).
  - simpl. repeat split; reflexivity.
  - reflexivity.
  - reflexivity.
  - lia.
Defined.

(** ** Lower partial expectation *)

Lemma Qltb_lt x y : Qltb x y = true <-> x < y.
Proof.
  unfold Qltb. rewrite negb_true_iff.
  destruct (Qle_bool y x) eqn:E.
  - apply Qle_bool_iff in E. split; [discriminate | lra].
  - split; [intros _ | reflexivity].
    destruct (Qlt_le_dec x y) as [H|H]; [exact H|].
    apply Qle_bool_iff in H. congruence.
Qed.

Lemma Qltb_ge x y : Qltb x y = false <-> y <= x.
Proof.
  destruct (Qltb x y) eqn:E.
  - apply Qltb_lt in E. split; [discriminate | lra].
  - split; [intros _ | reflexivity].
    destruct (Qlt_le_dec x y) as [H|H]; [|exact H].
    apply Qltb_lt in H. congruence.
Qed.

(** The accumulator only ever goes down. *)
Lemma e_min_loop_le_acc s ps :
  Forall (fun p => 0 <= p) ps ->
  forall vs e, e_min_loop s e ps vs <= e.
Proof.
  induction 1 as [|p ps Hp _ IH]; intros [|v vs] e; simpl; try lra.
  destruct (Qltb v s) eqn:E; [|lra].
  apply Qltb_lt in E.
  specialize (IH vs (e + p * (v - s))). nra.
Qed.

Lemma e_min_loop_antitone s1 s2 ps :
  Forall (fun p => 0 <= p) ps ->
  s1 <= s2 ->
  forall vs e1 e2, e2 <= e1 -> e_min_loop s2 e2 ps vs <= e_min_loop s1 e1 ps vs.
Proof.
  intros Hps Hs. induction Hps as [|p ps Hp Hps IH]; intros [|v vs] e1 e2 He; simpl; auto.
  destruct (Qltb v s1) eqn:E1, (Qltb v s2) eqn:E2.
  - apply IH. nra.
  - apply Qltb_lt in E1. apply Qltb_ge in E2. lra.
  - apply Qltb_lt in E2.
    pose proof (e_min_loop_le_acc s2 ps Hps vs (e2 + p * (v - s2))). nra.
  - exact He.
Qed.

Lemma nondecreasing_tail a t : nondecreasing (a :: t) -> nondecreasing t.
Proof. destruct t; simpl; tauto. Qed.

Lemma nondecreasing_head_le a t :
  nondecreasing (a :: t) -> Forall (fun v => a <= v) t.
Proof.
  revert a; induction t as [|b t IH]; intros a H; constructor.
  - simpl in H. tauto.
  - destruct H as [Hab Ht]. specialize (IH b Ht).
    eapply Forall_impl; [|exact IH]. simpl. intros; lra.
Qed.

Lemma lower_partial_sum_above s ps vs :
  Forall (fun v => s <= v) vs -> lower_partial_sum s ps vs == 0.
Proof.
  intros H; revert ps; induction H as [|v vs Hv _ IH]; intros [|p ps]; simpl;
    try reflexivity.
  apply Qltb_ge in Hv. rewrite Hv, IH. lra.
Qed.

Lemma e_min_loop_sorted s ps :
  forall vs e, nondecreasing vs ->
    e_min_loop s e ps vs == e + lower_partial_sum s ps vs.
Proof.
  induction ps as [|p ps IH]; intros [|v vs] e Hs; simpl; try lra.
  destruct (Qltb v s) eqn:E.
  - rewrite IH by (eapply nondecreasing_tail; eauto). lra.
  - apply Qltb_ge in E.
    rewrite (lower_partial_sum_above s ps vs); [lra|].
    eapply Forall_impl; [|apply nondecreasing_head_le; exact Hs].
    simpl; intros; lra.
Qed.

(** C7. With non-negative atom masses and a non-decreasing [V], [e_min_s] is
    non-increasing in [s], is 0 for [s] below [V[0]], and equals the sum of
    [mass[i] * (V[i] - s)] over the atoms with [V[i] < s]. *)
Theorem e_min_s_antitone (atoms : list Q) (ms : MarkovState) :
  Forall (fun p => 0 <= p) (atom_p atoms) ->
  nondecreasing (V ms) ->
  (forall s1 s2, s1 <= s2 -> e_min_s atoms ms s2 <= e_min_s atoms ms s1) /\
  (forall s v0, nth_error (V ms) 0 = Some v0 -> s < v0 -> e_min_s atoms ms s == 0) /\
  (forall s, e_min_s atoms ms s == lower_partial_sum s (atom_p atoms) (V ms)).
Proof.
  intros Hp Hs. unfold e_min_s. repeat split.
  - intros s1 s2 H. apply e_min_loop_antitone; auto. lra.
  - intros s v0 Hv Hlt. destruct (V ms) as [|v vs]; [discriminate|].
    injection Hv as ->. destruct (atom_p atoms) as [|p ps]; [reflexivity|].
    simpl. assert (E : Qltb v0 s = false) by (apply Qltb_ge; lra).
    rewrite E. reflexivity.
  - intros s. rewrite e_min_loop_sorted by exact Hs. lra.
Qed.

Lemma e_min_s_antitone_witness :
  (forall s1 s2, s1 <= s2 ->
     e_min_s [0; 1#4; 1#2; 1] (mkMarkovState [-(1); 2; 2] [0; 0; 0]) s2
     <= e_min_s [0; 1#4; 1#2; 1] (mkMarkovState [-(1); 2; 2] [0; 0; 0]) s1) /\
  (forall s v0, nth_error [-(1); 2; 2] 0 = Some v0 -> s < v0 ->
     e_min_s [0; 1#4; 1#2; 1] (mkMarkovState [-(1); 2; 2] [0; 0; 0]) s == 0) /\
  (forall s, e_min_s [0; 1#4; 1#2; 1] (mkMarkovState [-(1); 2; 2] [0; 0; 0]) s
             == lower_partial_sum s (atom_p [0; 1#4; 1#2; 1]) [-(1); 2; 2]).
Proof.
  apply (e_min_s_antitone [0; 1#4; 1#2; 1] (mkMarkovState [-(1); 2; 2] [0; 0; 0])).
  - repeat constructor; discriminate.
  - simpl. repeat split; discriminate.
Defined.

(** ** Interpolated CVaR *)

Lemma scan_atoms_first alpha l :
  forall start cur j,
    (j < length l)%nat ->
    (forall k, (k < j)%nat -> nth k l 0 <= alpha) ->
    alpha < nth j l 0 ->
    scan_atoms alpha l start cur = (start + j)%nat.
Proof.
  induction l as [|a l IH]; intros start cur j Hj Hbelow Hlt; [simpl in Hj; lia|].
  simpl. destruct j as [|j].
  - simpl in Hlt. apply Qltb_lt in Hlt. rewrite Hlt. lia.
  - assert (E : Qltb alpha a = false) by (apply Qltb_ge; apply (Hbelow O); lia).
    rewrite E, (IH (S start) start j); [lia | simpl in Hj; lia | | exact Hlt].
    intros k Hk. apply (Hbelow (S k)). lia.
Qed.

Lemma increasing_nth_le atoms :
  increasing atoms ->
  forall i j, (i <= j)%nat -> (j < length atoms)%nat -> nth i atoms 0 <= nth j atoms 0.
Proof.
  induction atoms as [|a t IH]; intros Hinc i j Hij Hj; [simpl in Hj; lia|].
  assert (Ht : increasing t) by (destruct t; simpl in *; tauto).
  destruct j as [|j]; [replace i with O by lia; lra|].
  destruct i as [|i].
  - destruct t as [|b t]; [simpl in Hj; lia|].
    destruct Hinc as [Hab _].
    specialize (IH Ht O j ltac:(lia) ltac:(simpl in Hj |- *; lia)).
    simpl in IH |- *. lra.
  - simpl. apply IH; [exact Ht | lia | simpl in Hj; lia].
Qed.

Lemma increasing_nth_lt atoms :
  increasing atoms ->
  forall i, (S i < length atoms)%nat -> nth i atoms 0 < nth (S i) atoms 0.
Proof.
  intros Hinc i Hi.
  pose proof (increasing_atom_p_pos atoms Hinc) as Hpos.
  rewrite Forall_forall in Hpos.
  specialize (Hpos (nth i (atom_p atoms) 0)).
  rewrite nth_atom_p in Hpos by exact Hi.
  assert (In (nth (S i) atoms 0 - nth i atoms 0) (atom_p atoms)).
  { rewrite <- nth_atom_p by exact Hi. apply nth_In. rewrite length_atom_p. lia. }
  specialize (Hpos H). lra.
Qed.

Lemma py_index_nat {A : Type} (l : list A) (i : nat) (a : A) :
  nth_error l i = Some a -> py_index l (Z.of_nat i) = Ret a.
Proof.
  intros H. unfold py_index.
  destruct (Z.of_nat i <? 0)%Z eqn:E; [apply Z.ltb_lt in E; lia|].
  rewrite E, Nat2Z.id, H. reflexivity.
Qed.

Lemma nth_error_nth_Q (l : list Q) (i : nat) :
  (i < length l)%nat -> nth_error l i = Some (nth i l 0).
Proof. intros H. apply nth_error_nth'. exact H. Qed.

Lemma scan_atoms_interval atoms alpha i :
  increasing atoms ->
  (1 <= i)%nat -> (i < length atoms)%nat ->
  nth (i - 1) atoms 0 <= alpha -> alpha < nth i atoms 0 ->
  scan_atoms alpha (tl atoms) 1 0 = i.
Proof.
  intros Hinc H1 Hi Hlo Hhi.
  destruct atoms as [|a0 t]; [simpl in Hi; lia|].
  simpl tl. rewrite (scan_atoms_first alpha t 1 0 (i - 1)); [lia | simpl in Hi; lia | |].
  - intros k Hk.
    pose proof (increasing_nth_le (a0 :: t) Hinc (S k) (i - 1) ltac:(lia) ltac:(lia)) as H.
    simpl nth at 1 in H. lra.
  - replace i with (S (i - 1)) in Hhi by lia. exact Hhi.
Qed.

(** C9. On a strictly increasing grid of [K+1] atoms starting at 0,
    [yc_alpha(alpha)] for [alpha] in the interval [[atoms[i-1], atoms[i])]
    is the linear interpolation between the anchors of that interval:
    [(alpha / atoms[1]) * yC[0]] in the first interval, and
    [yC[i-2] + (alpha - atoms[i-1]) / (atoms[i] - atoms[i-1]) * (yC[i-1] - yC[i-2])]
    for [i >= 2]; when the grid ends at 1, every [alpha] in (0,1) lies in
    such an interval. *)
Theorem yc_alpha_interpolates (atoms : list Q) (ms : MarkovState) (K : nat) (alpha : Q) :
  increasing atoms ->
  length atoms = S K ->
  length (yC ms) = K ->
  nth 0 atoms 0 == 0 ->
  (forall i, (1 <= i <= K)%nat ->
     nth (i - 1) atoms 0 <= alpha -> alpha < nth i atoms 0 ->
     exists r, yc_alpha atoms ms alpha = Ret r /\
       (i = 1%nat -> r == (alpha / nth 1 atoms 0) * nth 0 (yC ms) 0) /\
       ((2 <= i)%nat ->
          r == nth (i - 2) (yC ms) 0
               + ((alpha - nth (i - 1) atoms 0) / (nth i atoms 0 - nth (i - 1) atoms 0))
                 * (nth (i - 1) (yC ms) 0 - nth (i - 2) (yC ms) 0))) /\
  (0 < alpha -> alpha < 1 -> nth K atoms 0 == 1 ->
     exists i, (1 <= i <= K)%nat /\ nth (i - 1) atoms 0 <= alpha /\ alpha < nth i atoms 0).
Proof.
  intros Hinc Hlen HK H0. split.
  - intros i Hi Hlo Hhi.
    assert (Hscan : scan_atoms alpha (tl atoms) 1 0 = i)
      by (apply scan_atoms_interval; auto; lia).
    unfold yc_alpha. rewrite Hscan. clear Hscan.
    replace (Z.of_nat i - 1)%Z with (Z.of_nat (i - 1)) by lia.
    rewrite (py_index_nat atoms (i - 1) _ (nth_error_nth_Q atoms (i - 1) ltac:(lia))).
    rewrite (py_index_nat atoms i _ (nth_error_nth_Q atoms i ltac:(lia))).
    simpl obind.
    destruct (Z.of_nat i =? 1)%Z eqn:E1.
    + apply Z.eqb_eq in E1. assert (i = 1%nat) by lia. subst i.
      rewrite (py_index_nat (yC ms) (1 - 1) _ (nth_error_nth_Q (yC ms) (1 - 1) ltac:(lia))).
      simpl obind. eexists; split; [reflexivity|]. split; [|intros; lia].
      intros _. simpl Nat.sub. rewrite H0.
      assert (Hne : ~ nth 1 atoms 0 == 0).
      { pose proof (increasing_nth_lt atoms Hinc O ltac:(lia)). lra. }
      field. lra.
    + apply Z.eqb_neq in E1.
      replace (Z.of_nat i - 2)%Z with (Z.of_nat (i - 2)) by lia.
      rewrite (py_index_nat (yC ms) (i - 2) _ (nth_error_nth_Q (yC ms) (i - 2) ltac:(lia))).
      rewrite (py_index_nat (yC ms) (i - 1) _ (nth_error_nth_Q (yC ms) (i - 1) ltac:(lia))).
      simpl obind. eexists; split; [reflexivity|]. split; [intros; lia|].
      intros _. reflexivity.
  - intros Hpos Hlt1 Hlast.
    assert (Hex : forall n, (n <= K)%nat -> alpha < nth n atoms 0 ->
              exists i, (1 <= i <= n)%nat /\ nth (i - 1) atoms 0 <= alpha /\ alpha < nth i atoms 0).
    { induction n as [|n IH]; intros Hn Hal; [lra|].
      destruct (Qlt_le_dec alpha (nth n atoms 0)) as [Hl|Hl].
      - destruct (IH ltac:(lia) Hl) as (i & Hi & ? & ?). exists i. repeat split; auto; lia.
      - exists (S n). replace (S n - 1)%nat with n by lia. repeat split; auto; lia. }
    apply (Hex K); [lia | lra].
Qed.

Lemma yc_alpha_interpolates_witness :
  (forall i, (1 <= i <= 3)%nat ->
     nth (i - 1) [0; 1#4; 1#2; 1] 0 <= 3#5 -> 3#5 < nth i [0; 1#4; 1#2; 1] 0 ->
     exists r, yc_alpha [0; 1#4; 1#2; 1] (mkMarkovState [0; 0; 0] [1; 3; 4]) (3#5) = Ret r /\
       (i = 1%nat -> r == ((3#5) / nth 1 [0; 1#4; 1#2; 1] 0) * nth 0 [1; 3; 4] 0) /\
       ((2 <= i)%nat ->
          r == nth (i - 2) [1; 3; 4] 0
               + (((3#5) - nth (i - 1) [0; 1#4; 1#2; 1] 0)
                  / (nth i [0; 1#4; 1#2; 1] 0 - nth (i - 1) [0; 1#4; 1#2; 1] 0))
                 * (nth (i - 1) [1; 3; 4] 0 - nth (i - 2) [1; 3; 4] 0))) /\
  (0 < 3#5 -> 3#5 < 1 -> nth 3 [0; 1#4; 1#2; 1] 0 == 1 ->
     exists i, (1 <= i <= 3)%nat /\
       nth (i - 1) [0; 1#4; 1#2; 1] 0 <= 3#5 /\ 3#5 < nth i [0; 1#4; 1#2; 1] 0).
Proof.
  apply (yc_alpha_interpolates [0; 1#4; 1#2; 1] (mkMarkovState [0; 0; 0] [1; 3; 4]) 3 (3#5)).
  - simpl. repeat split; reflexivity.
  - reflexivity.
  - reflexivity.
  - reflexivity.
Defined.

(** ** Indexing and in-place stores *)

Lemma length_set_nth {A : Type} (l : list A) i v : length (set_nth l i v) = length l.
Proof.
  revert i; induction l as [|h t IH]; intros [|i]; simpl; auto.
Qed.

Lemma nth_error_set_nth_same {A : Type} (l : list A) i v :
  (i < length l)%nat -> nth_error (set_nth l i v) i = Some v.
Proof.
  revert i; induction l as [|h t IH]; intros [|i] H; simpl in *; try lia; auto.
  apply IH. lia.
Qed.

Lemma nth_set_nth (l : list Q) i j v :
  (i < length l)%nat ->
  nth j (set_nth l i v) 0 = if Nat.eqb i j then v else nth j l 0.
Proof.
  revert i j; induction l as [|h t IH]; intros [|i] [|j] H; simpl in *; try lia; auto.
  apply IH. lia.
Qed.

Lemma py_index_pos {A : Type} (l : list A) i :
  py_index l i = match py_pos (length l) i with
                 | Some j => match nth_error l j with
                             | Some a => Ret a
                             | None => Raise IndexError
                             end
                 | None => Raise IndexError
                 end.
Proof.
  unfold py_index, py_pos.
  set (j := if (i <? 0)%Z then (Z.of_nat (length l) + i)%Z else i).
  destruct (j <? 0)%Z eqn:E1; [reflexivity|].
  destruct (j <? Z.of_nat (length l))%Z eqn:E2; [reflexivity|].
  apply Z.ltb_ge in E1, E2.
  assert (H : nth_error l (Z.to_nat j) = None) by (apply nth_error_None; lia).
  rewrite H. reflexivity.
Qed.

Lemma py_store_pos {A : Type} (l : list A) i v :
  py_store l i v = match py_pos (length l) i with
                   | Some j => Ret (set_nth l j v)
                   | None => Raise IndexError
                   end.
Proof.
  unfold py_store, py_pos.
  set (j := if (i <? 0)%Z then (Z.of_nat (length l) + i)%Z else i).
  destruct (j <? 0)%Z; [reflexivity|].
  destruct (j <? Z.of_nat (length l))%Z; reflexivity.
Qed.

Lemma py_pos_lt n i j : py_pos n i = Some j -> (j < n)%nat.
Proof.
  unfold py_pos.
  set (k := if (i <? 0)%Z then (Z.of_nat n + i)%Z else i).
  destruct (k <? 0)%Z eqn:E1; [discriminate|].
  destruct (k <? Z.of_nat n)%Z eqn:E2; [|discriminate].
  apply Z.ltb_ge in E1. apply Z.ltb_lt in E2. intros [= <-]. lia.
Qed.

Lemma py_index_Ret_pos {A : Type} (l : list A) i a :
  py_index l i = Ret a ->
  exists j, py_pos (length l) i = Some j /\ nth_error l j = Some a.
Proof.
  rewrite py_index_pos. destruct (py_pos (length l) i) as [j|]; [|discriminate].
  destruct (nth_error l j) as [b|] eqn:E; [|discriminate].
  intros [= ->]. eauto.
Qed.

Lemma py_store_after_index {A : Type} (l : list A) i a v :
  py_index l i = Ret a ->
  exists l', py_store l i v = Ret l' /\ py_index l' i = Ret v /\ length l' = length l.
Proof.
  intros H. destruct (py_index_Ret_pos l i a H) as (j & Hj & Hn).
  exists (set_nth l j v). rewrite py_store_pos, Hj. split; [reflexivity|].
  split; [|apply length_set_nth].
  rewrite py_index_pos, length_set_nth, Hj, nth_error_set_nth_same; [reflexivity|].
  eapply py_pos_lt; eauto.
Qed.

Lemma py_store_nat {A : Type} (l : list A) (i : nat) v :
  (i < length l)%nat -> py_store l (Z.of_nat i) v = Ret (set_nth l i v).
Proof.
  intros H. rewrite py_store_pos. unfold py_pos.
  destruct (Z.of_nat i <? 0)%Z eqn:E; [apply Z.ltb_lt in E; lia|].
  rewrite E. destruct (Z.of_nat i <? Z.of_nat (length l))%Z eqn:E2.
  - rewrite Nat2Z.id. reflexivity.
  - apply Z.ltb_ge in E2. lia.
Qed.

Lemma Q_set_after_get T y x a ms ms' :
  Q_get T y x a = Ret ms ->
  exists T', Q_set T y x a ms' = Ret T' /\ Q_get T' y x a = Ret ms'.
Proof.
  unfold Q_get, Q_set. intros H.
  destruct (py_index T y) as [plane|] eqn:Ey; [|discriminate]. simpl in H |- *.
  destruct (py_index plane x) as [line|] eqn:Ex; [|discriminate]. simpl in H |- *.
  destruct (py_store_after_index line a ms ms' H) as (line' & Sa & Ia & _).
  destruct (py_store_after_index plane x line line' Ex) as (plane' & Sx & Ix & _).
  destruct (py_store_after_index T y plane plane' Ey) as (T' & Sy & Iy & _).
  exists T'. rewrite Sa. simpl. rewrite Sx. simpl. rewrite Sy. split; [reflexivity|].
  rewrite Iy. simpl. rewrite Ix. simpl. exact Ia.
Qed.

(** ** The mutating primitives *)

Lemma bind_Ret {A B : Type} (m : M A) (k : A -> M B) T a T' :
  m T = (Ret a, T') -> bind m k T = k a T'.
Proof. intros H. unfold bind. rewrite H. reflexivity. Qed.

Lemma bind_Raise {A B : Type} (m : M A) (k : A -> M B) T e T' :
  m T = (Raise e, T') -> bind m k T = (Raise e, T').
Proof. intros H. unfold bind. rewrite H. reflexivity. Qed.

Section Cell.

Variables (x : State) (a : Z).

Lemma read_V_Ret T ms i v :
  Q_get T (st_y x) (st_x x) a = Ret ms ->
  nth_error (V ms) i = Some v ->
  read_V x a (Z.of_nat i) T = (Ret v, T).
Proof.
  intros Hg Hn. unfold read_V, query. rewrite Hg. simpl.
  rewrite (py_index_nat _ _ _ Hn). reflexivity.
Qed.

Lemma read_yC_Ret T ms i v :
  Q_get T (st_y x) (st_x x) a = Ret ms ->
  nth_error (yC ms) i = Some v ->
  read_yC x a (Z.of_nat i) T = (Ret v, T).
Proof.
  intros Hg Hn. unfold read_yC, query. rewrite Hg. simpl.
  rewrite (py_index_nat _ _ _ Hn). reflexivity.
Qed.

Lemma store_V_Ret T ms i v :
  Q_get T (st_y x) (st_x x) a = Ret ms ->
  (i < length (V ms))%nat ->
  exists T', store_V x a (Z.of_nat i) v T = (Ret tt, T') /\
             Q_get T' (st_y x) (st_x x) a
             = Ret (mkMarkovState (set_nth (V ms) i v) (yC ms)).
Proof.
  intros Hg Hi.
  destruct (Q_set_after_get T _ _ _ ms (mkMarkovState (set_nth (V ms) i v) (yC ms)) Hg)
    as (T' & Hs & Hg').
  exists T'. split; [|exact Hg'].
  unfold store_V. rewrite Hg. simpl. rewrite (py_store_nat _ _ _ Hi). simpl.
  rewrite Hs. reflexivity.
Qed.

Lemma store_yC_Ret T ms i v :
  Q_get T (st_y x) (st_x x) a = Ret ms ->
  (i < length (yC ms))%nat ->
  exists T', store_yC x a (Z.of_nat i) v T = (Ret tt, T') /\
             Q_get T' (st_y x) (st_x x) a
             = Ret (mkMarkovState (V ms) (set_nth (yC ms) i v)).
Proof.
  intros Hg Hi.
  destruct (Q_set_after_get T _ _ _ ms (mkMarkovState (V ms) (set_nth (yC ms) i v)) Hg)
    as (T' & Hs & Hg').
  exists T'. split; [|exact Hg'].
  unfold store_yC. rewrite Hg. simpl. rewrite (py_store_nat _ _ _ Hi). simpl.
  rewrite Hs. reflexivity.
Qed.

Variables beta gamma : Q.

(** One inner-loop pass on a cell that has entry [i]: it returns, and the
    cell holds [atom_step] of the pair read at [i]. *)
Lemma update_step_run T ms r v i atom Vi yCi :
  Q_get T (st_y x) (st_x x) a = Ret ms ->
  nth_error (V ms) i = Some Vi ->
  nth_error (yC ms) i = Some yCi ->
  exists T',
    update_step beta gamma x a r v i atom T = (Ret tt, T') /\
    Q_get T' (st_y x) (st_x x) a
    = Ret (mkMarkovState
             (set_nth (V ms) i (fst (atom_step beta gamma atom r v (Vi, yCi))))
             (set_nth (yC ms) i (snd (atom_step beta gamma atom r v (Vi, yCi))))).
Proof.
  intros Hg HV HyC.
  assert (HiV : (i < length (V ms))%nat) by (apply nth_error_Some; congruence).
  assert (HiY : (i < length (yC ms))%nat) by (apply nth_error_Some; congruence).
  unfold update_step, atom_step. cbv zeta. simpl fst. simpl snd.
  rewrite (bind_Ret _ _ _ _ _ (read_V_Ret T ms i Vi Hg HV)).
  rewrite (bind_Ret _ _ _ _ _ (read_yC_Ret T ms i yCi Hg HyC)).
  rewrite (bind_Ret _ _ _ _ _ (read_V_Ret T ms i Vi Hg HV)).
  destruct (Qle_bool (r + gamma * v) Vi).
  - destruct (store_V_Ret T ms i (Vi + beta * (1 - 1 / atom)) Hg HiV) as (T1 & H1 & G1).
    destruct (store_yC_Ret T1 _ i
                ((1 - beta) * yCi + beta * (atom * Vi + Qmin 0 (r + gamma * v - Vi)))
                G1 HiY) as (T2 & H2 & G2).
    exists T2. split; [|exact G2].
    erewrite bind_Ret; [exact H2|].
    rewrite (bind_Ret _ _ _ _ _ (read_V_Ret T ms i Vi Hg HV)). exact H1.
  - destruct (store_V_Ret T ms i (Vi + beta) Hg HiV) as (T1 & H1 & G1).
    destruct (store_yC_Ret T1 _ i
                ((1 - beta) * yCi + beta * (atom * Vi + Qmin 0 (r + gamma * v - Vi)))
                G1 HiY) as (T2 & H2 & G2).
    exists T2. split; [|exact G2].
    erewrite bind_Ret; [exact H2|].
    rewrite (bind_Ret _ _ _ _ _ (read_V_Ret T ms i Vi Hg HV)). exact H1.
Qed.

End Cell.

(** C1. One atom-target step of [update] on a cell that has entry [i]
    returns and leaves [V[i]] raised by [beta*(1 - 1/atom)] when the stored
    [V[i]] is at least the target [r + gamma*v], by [beta] otherwise, and
    [yC[i]] set to [(1-beta)*yC[i] + beta*(atom*V[i] + min(0, r + gamma*v - V[i]))]
    with the [V[i]] and [yC[i]] read before the step wrote anything. *)
Theorem update_step_effect (beta gamma : Q) (x : State) (a : Z) (T : Table)
  (ms : MarkovState) (r v : Q) (i : nat) (atom Vi yCi : Q) :
  Q_get T (st_y x) (st_x x) a = Ret ms ->
  nth_error (V ms) i = Some Vi ->
  nth_error (yC ms) i = Some yCi ->
  exists T' Vi',
    update_step beta gamma x a r v i atom T = (Ret tt, T') /\
    Q_get T' (st_y x) (st_x x) a
    = Ret (mkMarkovState
             (set_nth (V ms) i Vi')
             (set_nth (yC ms) i
                ((1 - beta) * yCi
                 + beta * (atom * Vi + Qmin 0 (r + gamma * v - Vi))))) /\
    (r + gamma * v <= Vi -> Vi' = Vi + beta * (1 - 1 / atom)) /\
    (Vi < r + gamma * v -> Vi' = Vi + beta).
Proof.
  intros Hg HV HyC.
  destruct (update_step_run x a beta gamma T ms r v i atom Vi yCi Hg HV HyC)
    as (T' & Hrun & Hcell).
  exists T', (fst (atom_step beta gamma atom r v (Vi, yCi))).
  split; [exact Hrun|]. split; [exact Hcell|].
  unfold atom_step. simpl fst. split; intros H.
  - apply Qle_bool_iff in H. rewrite H. reflexivity.
  - destruct (Qle_bool (r + gamma * v) Vi) eqn:E; [|reflexivity].
    apply Qle_bool_iff in E. lra.
Qed.

Lemma update_step_effect_witness :
  exists T' Vi',
    update_step (1#10) 1 origin 0 1 0 0 (1#2) table_1x1 = (Ret tt, T') /\
    Q_get T' (st_y origin) (st_x origin) 0
    = Ret (mkMarkovState
             (set_nth (V (MarkovState_init 2)) 0 Vi')
             (set_nth (yC (MarkovState_init 2)) 0
                ((1 - (1#10)) * 0 + (1#10) * ((1#2) * 0 + Qmin 0 (1 + 1 * 0 - 0))))) /\
    (1 + 1 * 0 <= 0 -> Vi' = 0 + (1#10) * (1 - 1 / (1#2))) /\
    (0 < 1 + 1 * 0 -> Vi' = 0 + (1#10)).
Proof.
  apply (update_step_effect (1#10) 1 origin 0 table_1x1 (MarkovState_init 2)
           1 0 0 (1#2) 0 0); reflexivity.
Defined.

(** ** The double loop of [update] *)

Section Loop.

Variables (beta gamma : Q) (x : State) (a : Z) (r : Q).

(** The inner loop for one target [v], started at atom index [k]. *)
Lemma update_inner_run v (l : list Q) :
  forall k T ms,
    Q_get T (st_y x) (st_x x) a = Ret ms ->
    (k + length l <= length (V ms))%nat ->
    (k + length l <= length (yC ms))%nat ->
    exists T' ms',
      for_each (combine (seq k (length l)) l)
               (fun ia => update_step beta gamma x a r v (fst ia) (snd ia)) T
      = (Ret tt, T') /\
      Q_get T' (st_y x) (st_x x) a = Ret ms' /\
      length (V ms') = length (V ms) /\
      length (yC ms') = length (yC ms) /\
      forall i,
        (nth i (V ms') 0, nth i (yC ms') 0)
        = if (k <=? i)%nat && (i <? k + length l)%nat
          then atom_step beta gamma (nth (i - k) l 0) r v
                         (nth i (V ms) 0, nth i (yC ms) 0)
          else (nth i (V ms) 0, nth i (yC ms) 0).
Proof.
  induction l as [|atom l IH]; intros k T ms Hg HV HY.
  - exists T, ms. simpl. repeat split; auto.
    intros i. destruct (k <=? i)%nat eqn:E1, (i <? k + 0)%nat eqn:E2; simpl; auto.
    apply Nat.leb_le in E1. apply Nat.ltb_lt in E2. lia.
  - simpl length in *.
    destruct (update_step_run x a beta gamma T ms r v k atom
                (nth k (V ms) 0) (nth k (yC ms) 0) Hg
                (nth_error_nth_Q (V ms) k ltac:(lia)) (nth_error_nth_Q (yC ms) k ltac:(lia)))
      as (T1 & Hrun & Hg1).
    set (ms1 := mkMarkovState _ _) in Hg1.
    destruct (IH (S k) T1 ms1 Hg1) as (T' & ms' & Hloop & Hg' & HlV & HlY & Hnth).
    { unfold ms1. simpl. rewrite length_set_nth. lia. }
    { unfold ms1. simpl. rewrite length_set_nth. lia. }
    exists T', ms'. split.
    { simpl. erewrite bind_Ret; [exact Hloop | exact Hrun]. }
    split; [exact Hg'|].
    split; [rewrite HlV; unfold ms1; simpl; apply length_set_nth|].
    split; [rewrite HlY; unfold ms1; simpl; apply length_set_nth|].
    intros i. rewrite Hnth. unfold ms1. simpl V. simpl yC.
    rewrite !nth_set_nth by lia.
    destruct (Nat.eqb k i) eqn:Eki.
    + apply Nat.eqb_eq in Eki. subst i.
      replace (S k <=? k)%nat with false by (symmetry; apply Nat.leb_gt; lia).
      replace (k <=? k)%nat with true by (symmetry; apply Nat.leb_le; lia).
      replace (k <? k + S (length l))%nat with true by (symmetry; apply Nat.ltb_lt; lia).
      simpl andb. cbv iota. rewrite Nat.sub_diag.
      change (nth 0 (atom :: l) 0) with atom.
      symmetry. apply surjective_pairing.
    + apply Nat.eqb_neq in Eki.
      destruct (S k <=? i)%nat eqn:E1.
      * apply Nat.leb_le in E1.
        replace (k <=? i)%nat with true by (symmetry; apply Nat.leb_le; lia).
        replace (i <? k + S (length l))%nat with (i <? S k + length l)%nat
          by (f_equal; lia).
        destruct (i <? S k + length l)%nat; simpl andb; cbv iota; [|reflexivity].
        replace (i - k)%nat with (S (i - S k)) by lia. reflexivity.
      * apply Nat.leb_gt in E1.
        replace (k <=? i)%nat with false by (symmetry; apply Nat.leb_gt; lia).
        reflexivity.
Qed.

Variable atoms : list Q.

(** The whole double loop on a cell with as many entries as there are atoms
    after the first: it returns, and every entry has gone through
    [atom_run]. *)
Lemma update_loop_run V_x :
  forall T ms,
    Q_get T (st_y x) (st_x x) a = Ret ms ->
    length (V ms) = length (tl atoms) ->
    length (yC ms) = length (tl atoms) ->
    exists T' ms',
      update_loop atoms beta gamma x a r V_x T = (Ret tt, T') /\
      Q_get T' (st_y x) (st_x x) a = Ret ms' /\
      length (V ms') = length (tl atoms) /\
      length (yC ms') = length (tl atoms) /\
      forall i, (i < length (tl atoms))%nat ->
        (nth i (V ms') 0, nth i (yC ms') 0)
        = atom_run beta gamma (nth (S i) atoms 0) r V_x
                   (nth i (V ms) 0, nth i (yC ms) 0).
Proof.
  unfold update_loop.
  induction V_x as [|v V_x IH]; intros T ms Hg HV HY.
  - exists T, ms. simpl. repeat split; auto.
  - destruct (update_inner_run v (tl atoms) 0 T ms Hg ltac:(lia) ltac:(lia))
      as (T1 & ms1 & Hin & Hg1 & HV1 & HY1 & Hn1).
    destruct (IH T1 ms1 Hg1 ltac:(congruence) ltac:(congruence))
      as (T' & ms' & Hout & Hg' & HV' & HY' & Hn').
    exists T', ms'. split.
    { simpl. erewrite bind_Ret; [exact Hout | exact Hin]. }
    repeat split; auto.
    intros i Hi. rewrite (Hn' i Hi), Hn1.
    cbn [andb Nat.leb Nat.add]. rewrite (proj2 (Nat.ltb_lt i _) Hi).
    rewrite Nat.sub_0_r.
    replace (nth i (tl atoms) 0) with (nth (S i) atoms 0)
      by (destruct atoms; [destruct i|]; reflexivity).
    reflexivity.
Qed.

End Loop.

(** ** Mapping a fallible function *)

Lemma omap_Ret_map {A B : Type} (f : A -> outcome B) (g : A -> B) l :
  (forall a, In a l -> f a = Ret (g a)) -> omap f l = Ret (map g l).
Proof.
  induction l as [|a l IH]; intros H; [reflexivity|].
  simpl. rewrite (H a (or_introl eq_refl)). simpl.
  rewrite IH by (intros; apply H; right; assumption). reflexivity.
Qed.

Lemma omap_length {A B : Type} (f : A -> outcome B) l bs :
  omap f l = Ret bs -> length bs = length l.
Proof.
  revert bs; induction l as [|a l IH]; intros bs; simpl.
  - intros [= <-]. reflexivity.
  - destruct (f a); [|discriminate]. simpl.
    destruct (omap f l); [|discriminate]. simpl.
    intros [= <-]. simpl. f_equal. apply IH. reflexivity.
Qed.

Lemma omap_Raise {A B : Type} (f : A -> outcome B) (P : exn -> Prop) l e :
  (forall a e', f a = Raise e' -> P e') -> omap f l = Raise e -> P e.
Proof.
  intros Hf. induction l as [|a l IH]; simpl; [discriminate|].
  destruct (f a) eqn:E; simpl.
  - destruct (omap f l); simpl; [discriminate|].
    intros [= <-]. apply IH. reflexivity.
  - intros [= <-]. eapply Hf; eauto.
Qed.

Lemma omap_then {A B C : Type} (f : A -> outcome B) (g : B -> outcome C) (h : B -> C) l :
  forall bs,
    omap f l = Ret bs ->
    Forall (fun b => g b = Ret (h b)) bs ->
    omap (fun a => let? b := f a in g b) l = Ret (map h bs).
Proof.
  induction l as [|a l IH]; intros bs; simpl.
  - intros [= <-] _. reflexivity.
  - destruct (f a) as [b|] eqn:E; [|discriminate]. simpl.
    destruct (omap f l) as [bs'|]; [|discriminate]. simpl.
    intros [= <-] Hall. inversion Hall as [|? ? Hb Hbs]; subst.
    rewrite Hb. simpl. rewrite (IH bs' eq_refl Hbs). reflexivity.
Qed.

(** ** Supremum over actions *)

Lemma Qmax_cases x y : Qmax x y = x \/ Qmax x y = y.
Proof.
  unfold Qmax, GenericMinMax.gmax. destruct (x ?= y); auto.
Qed.

Lemma fold_left_Qmax_upper l :
  forall h, h <= fold_left Qmax l h /\ Forall (fun y => y <= fold_left Qmax l h) l.
Proof.
  induction l as [|y l IH]; intros h; simpl; [split; [lra | constructor]|].
  destruct (IH (Qmax h y)) as [H1 H2].
  pose proof (Q.le_max_l h y). pose proof (Q.le_max_r h y).
  split; [lra|]. constructor; [lra | exact H2].
Qed.

Lemma fold_left_Qmax_attained l :
  forall h, In (fold_left Qmax l h) (h :: l).
Proof.
  induction l as [|y l IH]; intros h; simpl; [auto|].
  destruct (IH (Qmax h y)) as [H|H]; [|auto].
  rewrite <- H. destruct (Qmax_cases h y) as [E|E]; rewrite E; auto.
Qed.

Lemma np_max_spec l :
  l <> [] ->
  exists m, np_max l = Ret m /\ Forall (fun y => y <= m) l /\ In m l.
Proof.
  destruct l as [|h t]; [congruence|]. intros _.
  exists (fold_left Qmax t h). split; [reflexivity|].
  destruct (fold_left_Qmax_upper t h) as [H1 H2].
  split; [constructor; assumption | apply fold_left_Qmax_attained].
Qed.

Lemma length_sup_q NB atoms ACTIONS T x V_x :
  sup_q NB atoms ACTIONS T x = Ret V_x -> length V_x = NB.
Proof.
  unfold sup_q. destruct (omap _ (seq 0 NB)) as [yc|] eqn:E; [|discriminate].
  simpl. intros [= <-]. rewrite length_yc_to_var.
  rewrite (omap_length _ _ _ E), length_seq. reflexivity.
Qed.

(** C3. Where every action has a cell at [x] with [NB_ATOMS] CVaR entries,
    [sup_q(x)] is [yc_to_var(atoms, m)] with [m[i]] the maximum over the
    actions of the stored [yC[i]]; on a strictly increasing grid the
    cumulative sum of [mass[i]] times the returned quantiles is [m] again. *)
Theorem sup_q_is_envelope (NB : nat) (atoms : list Q) (ACTIONS : list Z)
  (T : Table) (x : State) (cells : list MarkovState) :
  omap (fun a => Q_get T (st_y x) (st_x x) a) ACTIONS = Ret cells ->
  cells <> [] ->
  Forall (fun ms => length (yC ms) = NB) cells ->
  exists m,
    sup_q NB atoms ACTIONS T x = Ret (yc_to_var atoms m) /\
    length m = NB /\
    (forall i, (i < NB)%nat ->
       Forall (fun ms => nth i (yC ms) 0 <= nth i m 0) cells /\
       Exists (fun ms => nth i m 0 = nth i (yC ms) 0) cells) /\
    (increasing atoms -> length atoms = S NB ->
       Qlist_eq (var_to_yc atoms (yc_to_var atoms m)) m).
Proof.
  intros Hcells Hne Hlen.
  set (col := fun i => map (fun ms => nth i (yC ms) 0) cells).
  assert (Hcol : forall i, (i < NB)%nat ->
            omap (fun a => let? ms := Q_get T (st_y x) (st_x x) a in
                           py_index (yC ms) (Z.of_nat i)) ACTIONS
            = Ret (col i)).
  { intros i Hi. apply (omap_then _ _ (fun ms => nth i (yC ms) 0) _ _ Hcells).
    eapply Forall_impl; [|exact Hlen]. simpl. intros ms Hms.
    apply py_index_nat, nth_error_nth_Q. lia. }
  assert (Hmax : forall i, exists mi, np_max (col i) = Ret mi /\
            Forall (fun y => y <= mi) (col i) /\ In mi (col i)).
  { intros i. apply np_max_spec. unfold col. destruct cells; [congruence | discriminate]. }
  set (top := fun i => match np_max (col i) with Ret mi => mi | Raise _ => 0 end).
  assert (Htop : forall i, np_max (col i) = Ret (top i)).
  { intros i. unfold top. destruct (Hmax i) as (mi & -> & _). reflexivity. }
  exists (map top (seq 0 NB)).
  assert (Hnth : forall i, (i < NB)%nat -> nth i (map top (seq 0 NB)) 0 = top i).
  { intros i Hi. rewrite (nth_indep _ 0 (top 0%nat)) by (rewrite length_map, length_seq; lia).
    rewrite map_nth, seq_nth by lia. reflexivity. }
  split.
  { unfold sup_q.
    rewrite (omap_Ret_map _ top); [reflexivity|].
    intros i Hi. apply in_seq in Hi. rewrite Hcol by lia. simpl. apply Htop. }
  split; [rewrite length_map, length_seq; reflexivity|].
  split.
  - intros i Hi. rewrite (Hnth i Hi).
    destruct (Hmax i) as (mi & Hmi & Hub & Hin).
    rewrite Htop in Hmi. injection Hmi as <-. unfold col in Hub, Hin. split.
    + rewrite Forall_map in Hub. exact Hub.
    + apply in_map_iff in Hin. destruct Hin as (ms & Hms & Hin).
      apply Exists_exists. exists ms. split; [exact Hin | symmetry; exact Hms].
  - intros Hinc Hat.
    assert (Hm : length (atom_p atoms) = NB) by (rewrite length_atom_p, Hat; reflexivity).
    unfold var_to_yc.
    rewrite yc_to_var_diffs by (rewrite length_map, length_seq; lia).
    apply cumsum_diffs; [reflexivity | apply increasing_atom_p_pos, Hinc |].
    rewrite length_map, length_seq. lia.
Qed.

Lemma sup_q_is_envelope_witness :
  exists m,
    sup_q 2 atoms2 [0%Z; 1%Z]
          [[[mkMarkovState [0; 0] [1; 5]; mkMarkovState [0; 0] [2; 3]]]] origin
    = Ret (yc_to_var atoms2 m) /\
    length m = 2%nat /\
    (forall i, (i < 2)%nat ->
       Forall (fun ms => nth i (yC ms) 0 <= nth i m 0)
              [mkMarkovState [0; 0] [1; 5]; mkMarkovState [0; 0] [2; 3]] /\
       Exists (fun ms => nth i m 0 = nth i (yC ms) 0)
              [mkMarkovState [0; 0] [1; 5]; mkMarkovState [0; 0] [2; 3]]) /\
    (increasing atoms2 -> length atoms2 = 3%nat ->
       Qlist_eq (var_to_yc atoms2 (yc_to_var atoms2 m)) m).
Proof.
  apply (sup_q_is_envelope 2 atoms2 [0%Z; 1%Z]
           [[[mkMarkovState [0; 0] [1; 5]; mkMarkovState [0; 0] [2; 3]]]] origin
           [mkMarkovState [0; 0] [1; 5]; mkMarkovState [0; 0] [2; 3]]).
  - reflexivity.
  - discriminate.
  - repeat constructor.
Defined.

(** ** [update] as a whole *)

(** C2, as the code has it.  On a table whose [(x, a)] cell has [NB_ATOMS]
    entries, [update] evaluates [sup_q(x_)] once at entry, and its loop
    returns having run the per-atom step once for every one of the
    [NB_ATOMS] target values of [sup_q(x_)]: entry [i] of the cell ends as
    [atom_run] over all targets in order, the first step reading the entry
    values and each later step the pair left by the step before it; no step
    reads another atom's entries.  What is left of the call is the closing
    assertion. *)
Theorem update_runs_every_target (NB : nat) (atoms : list Q) (beta gamma : Q)
  (ACTIONS : list Z) (x : State) (a : Z) (x_ : State) (r : Q)
  (T : Table) (ms : MarkovState) (V_x : list Q) :
  length atoms = S NB ->
  Q_get T (st_y x) (st_x x) a = Ret ms ->
  length (V ms) = NB ->
  length (yC ms) = NB ->
  sup_q NB atoms ACTIONS T x_ = Ret V_x ->
  length V_x = NB /\
  exists T' ms',
    update_loop atoms beta gamma x a r V_x T = (Ret tt, T') /\
    update NB atoms beta gamma ACTIONS x a x_ r T = update_assert x a T' /\
    Q_get T' (st_y x) (st_x x) a = Ret ms' /\
    forall i, (i < NB)%nat ->
      (nth i (V ms') 0, nth i (yC ms') 0)
      = atom_run beta gamma (nth (S i) atoms 0) r V_x
                 (nth i (V ms) 0, nth i (yC ms) 0).
Proof.
  intros Hat Hg HV HY Hsup.
  split; [eapply length_sup_q; eauto|].
  assert (Htl : length (tl atoms) = NB) by (destruct atoms; simpl in *; lia).
  destruct (update_loop_run beta gamma x a r atoms V_x T ms Hg
              ltac:(lia) ltac:(lia)) as (T' & ms' & Hloop & Hg' & _ & _ & Hn).
  exists T', ms'. split; [exact Hloop|]. split.
  - unfold update.
    erewrite bind_Ret by (unfold query; rewrite Hsup; reflexivity).
    erewrite bind_Ret by exact Hloop. reflexivity.
  - split; [exact Hg'|]. intros i Hi. apply Hn. lia.
Qed.

Lemma update_runs_every_target_witness :
  length [0; 0] = 2%nat /\
  exists T' ms',
    update_loop atoms2 (1#10) 1 origin 0 1 [0; 0] table_1x1 = (Ret tt, T') /\
    update 2 atoms2 (1#10) 1 [0%Z] origin 0 origin 1 table_1x1
    = update_assert origin 0 T' /\
    Q_get T' (st_y origin) (st_x origin) 0 = Ret ms' /\
    forall i, (i < 2)%nat ->
      (nth i (V ms') 0, nth i (yC ms') 0)
      = atom_run (1#10) 1 (nth (S i) atoms2 0) 1 [0; 0]
                 (nth i (V (MarkovState_init 2)) 0, nth i (yC (MarkovState_init 2)) 0).
Proof.
  apply (update_runs_every_target 2 atoms2 (1#10) 1 [0%Z] origin 0 origin 1
           table_1x1 (MarkovState_init 2) [0; 0]); reflexivity.
Defined.

(** C2, as the spec words it, fails: were the step run once per atom from
    the values held at entry, [V[0]] of the untouched two-atom cell would end
    as one step from 0 for one of the targets.  With reward 1 the call
    returns with [V[0] = 2/10], two steps of [beta = 1/10] away. *)
Lemma update_single_pass_counterexample :
  exists T' ms',
    sup_q 2 atoms2 [0%Z] table_1x1 origin = Ret [0; 0] /\
    update 2 atoms2 (1#10) 1 [0%Z] origin 0 origin 1 table_1x1 = (Ret tt, T') /\
    Q_get T' 0 0 0 = Ret ms' /\
    ~ (exists v, In v [0; 0] /\
         nth 0 (V ms') 0
         == fst (atom_step (1#10) 1 (nth 1 atoms2 0) 1 v
                           (nth 0 (V (MarkovState_init 2)) 0,
                            nth 0 (yC (MarkovState_init 2)) 0))).
Proof.
  eexists. eexists. split; [reflexivity|].
  split; [vm_compute; reflexivity|].
  split; [vm_compute; reflexivity|].
  intros (v & Hv & H).
  assert (E : v = 0) by (simpl in Hv; intuition congruence).
  subst v. vm_compute in H. discriminate H.
Qed.

(** The same call also shows the second target's step reading what the
    first one wrote: [yC[0]] ends at 1/200, while any step from the entry
    values leaves it at 0. *)
Example update_second_target_reads_first :
  exists T' ms',
    update 2 atoms2 (1#10) 1 [0%Z] origin 0 origin 1 table_1x1 = (Ret tt, T') /\
    Q_get T' 0 0 0 = Ret ms' /\
    Qlist_eq (V ms') [2#10; 2#10] /\ Qlist_eq (yC ms') [1#200; 1#100].
Proof.
  eexists. eexists. split; [vm_compute; reflexivity|].
  split; [vm_compute; reflexivity|].
  split; repeat constructor.
Qed.

(** ** Which exceptions [update] can raise *)

Lemma oquiet_Ret {A : Type} (a : A) : oquiet (Ret a).
Proof. intros e H. discriminate. Qed.

Lemma oquiet_Raise {A : Type} e : e <> AssertionError -> oquiet (@Raise A e).
Proof. intros H e' [= <-]. exact H. Qed.

Lemma oquiet_obind {A B : Type} (o : outcome A) (k : A -> outcome B) :
  oquiet o -> (forall a, oquiet (k a)) -> oquiet (obind o k).
Proof.
  intros Ho Hk e. destruct o as [a|e']; simpl.
  - apply Hk.
  - intros [= <-]. apply Ho. reflexivity.
Qed.

Lemma oquiet_py_index {A : Type} (l : list A) i : oquiet (py_index l i).
Proof.
  unfold py_index. destruct (_ <? 0)%Z; [apply oquiet_Raise; discriminate|].
  destruct (nth_error _ _); [apply oquiet_Ret | apply oquiet_Raise; discriminate].
Qed.

Lemma oquiet_py_store {A : Type} (l : list A) i v : oquiet (py_store l i v).
Proof.
  unfold py_store. destruct (_ <? 0)%Z; [apply oquiet_Raise; discriminate|].
  destruct (_ <? _)%Z; [apply oquiet_Ret | apply oquiet_Raise; discriminate].
Qed.

Lemma oquiet_Q_get T y x a : oquiet (Q_get T y x a).
Proof.
  unfold Q_get. repeat (apply oquiet_obind; [apply oquiet_py_index | intros ?]).
  apply oquiet_py_index.
Qed.

Lemma oquiet_Q_set T y x a ms : oquiet (Q_set T y x a ms).
Proof.
  unfold Q_set.
  repeat (apply oquiet_obind; [first [apply oquiet_py_index | apply oquiet_py_store] | intros ?]).
  apply oquiet_py_store.
Qed.

Lemma oquiet_omap {A B : Type} (f : A -> outcome B) l :
  (forall a, oquiet (f a)) -> oquiet (omap f l).
Proof.
  intros H e He.
  apply (omap_Raise f (fun e => e <> AssertionError) l e); [|exact He].
  intros a e' Ha. exact (H a e' Ha).
Qed.

Lemma oquiet_np_max l : oquiet (np_max l).
Proof.
  destruct l; [apply oquiet_Raise; discriminate | apply oquiet_Ret].
Qed.

Lemma oquiet_sup_q NB atoms ACTIONS T x : oquiet (sup_q NB atoms ACTIONS T x).
Proof.
  unfold sup_q. apply oquiet_obind; [|intros; apply oquiet_Ret].
  apply oquiet_omap. intros i.
  apply oquiet_obind; [|intros; apply oquiet_np_max].
  apply oquiet_omap. intros a.
  apply oquiet_obind; [apply oquiet_Q_get | intros; apply oquiet_py_index].
Qed.

Lemma quiet_ret {A : Type} (a : A) : quiet (ret a).
Proof. intros T e T' H. discriminate. Qed.

Lemma quiet_bind {A B : Type} (m : M A) (k : A -> M B) :
  quiet m -> (forall a, quiet (k a)) -> quiet (bind m k).
Proof.
  intros Hm Hk T e T'. unfold bind.
  destruct (m T) as [[a|e'] T1] eqn:E.
  - apply Hk.
  - intros [= <- <-]. eapply Hm; eauto.
Qed.

Lemma quiet_query {A : Type} (f : Table -> outcome A) :
  (forall T, oquiet (f T)) -> quiet (query f).
Proof.
  intros H T e T'. unfold query. intros [= E <-]. exact (H T e E).
Qed.

Lemma quiet_commit (f : Table -> outcome Table) :
  (forall T, oquiet (f T)) -> quiet (fun T => commit (f T) T).
Proof.
  intros H T e T'. unfold commit. destruct (f T) eqn:E; [discriminate|].
  intros [= <- <-]. exact (H T _ E).
Qed.

Lemma quiet_read_V x a i : quiet (read_V x a i).
Proof.
  apply quiet_query. intros T.
  apply oquiet_obind; [apply oquiet_Q_get | intros; apply oquiet_py_index].
Qed.

Lemma quiet_read_yC x a i : quiet (read_yC x a i).
Proof.
  apply quiet_query. intros T.
  apply oquiet_obind; [apply oquiet_Q_get | intros; apply oquiet_py_index].
Qed.

Lemma quiet_store_V x a i v : quiet (store_V x a i v).
Proof.
  unfold store_V. apply quiet_commit. intros T.
  apply oquiet_obind; [apply oquiet_Q_get | intros ms].
  apply oquiet_obind; [apply oquiet_py_store | intros; apply oquiet_Q_set].
Qed.

Lemma quiet_store_yC x a i v : quiet (store_yC x a i v).
Proof.
  unfold store_yC. apply quiet_commit. intros T.
  apply oquiet_obind; [apply oquiet_Q_get | intros ms].
  apply oquiet_obind; [apply oquiet_py_store | intros; apply oquiet_Q_set].
Qed.

Lemma quiet_for_each {B : Type} (l : list B) (body : B -> M unit) :
  (forall b, quiet (body b)) -> quiet (for_each l body).
Proof.
  intros H. induction l as [|b l IH]; simpl; [apply quiet_ret|].
  apply quiet_bind; [apply H | intros _; exact IH].
Qed.

Lemma quiet_update_step beta gamma x a r v i atom :
  quiet (update_step beta gamma x a r v i atom).
Proof.
  unfold update_step. cbv zeta.
  apply quiet_bind; [apply quiet_read_V | intros V0].
  apply quiet_bind; [apply quiet_read_yC | intros yC0].
  apply quiet_bind; [apply quiet_read_V | intros cur].
  apply quiet_bind; [|intros _; apply quiet_store_yC].
  destruct (Qle_bool _ _);
    (apply quiet_bind; [apply quiet_read_V | intros; apply quiet_store_V]).
Qed.

Lemma quiet_update_loop atoms beta gamma x a r V_x :
  quiet (update_loop atoms beta gamma x a r V_x).
Proof.
  unfold update_loop. apply quiet_for_each. intros v.
  apply quiet_for_each. intros ia. apply quiet_update_step.
Qed.

Lemma read_V_keeps x a i T o T' : read_V x a i T = (o, T') -> T' = T.
Proof. unfold read_V, query. intros [= _ <-]. reflexivity. Qed.

(** The closing assertion: what it returns is decided by the two reads. *)
Lemma update_assert_cases x a T :
  (exists first last,
     read_V x a 0 T = (Ret first, T) /\ read_V x a (-1) T = (Ret last, T) /\
     ((first <= last /\ update_assert x a T = (Ret tt, T)) \/
      (last < first /\ update_assert x a T = (Raise AssertionError, T)))) \/
  (exists e, e <> AssertionError /\ update_assert x a T = (Raise e, T)).
Proof.
  unfold update_assert.
  destruct (read_V x a 0 T) as [[first|e] T1] eqn:E1.
  - pose proof (read_V_keeps _ _ _ _ _ _ E1); subst T1.
    destruct (read_V x a (-1) T) as [[last|e] T2] eqn:E2.
    + pose proof (read_V_keeps _ _ _ _ _ _ E2); subst T2.
      left. exists first, last. split; [reflexivity|]. split; [reflexivity|].
      rewrite (bind_Ret _ _ _ _ _ E1), (bind_Ret _ _ _ _ _ E2).
      destruct (Qle_bool first last) eqn:E.
      * left. apply Qle_bool_iff in E. split; [exact E | reflexivity].
      * right. split; [|reflexivity].
        destruct (Qlt_le_dec last first) as [H|H]; [exact H|].
        apply Qle_bool_iff in H. congruence.
    + pose proof (read_V_keeps _ _ _ _ _ _ E2); subst T2.
      right. exists e. split; [eapply quiet_read_V; eauto|].
      rewrite (bind_Ret _ _ _ _ _ E1). apply bind_Raise. exact E2.
  - pose proof (read_V_keeps _ _ _ _ _ _ E1); subst T1.
    right. exists e. split; [eapply quiet_read_V; eauto|].
    apply bind_Raise. exact E1.
Qed.

(** How a call to [update] splits into its three parts. *)
Lemma update_cases NB atoms beta gamma ACTIONS x a x_ r T :
  (exists e T', e <> AssertionError /\
     update NB atoms beta gamma ACTIONS x a x_ r T = (Raise e, T')) \/
  (exists V_x T1,
     sup_q NB atoms ACTIONS T x_ = Ret V_x /\
     update_loop atoms beta gamma x a r V_x T = (Ret tt, T1) /\
     update NB atoms beta gamma ACTIONS x a x_ r T = update_assert x a T1).
Proof.
  unfold update.
  destruct (sup_q NB atoms ACTIONS T x_) as [V_x|e] eqn:Es.
  - erewrite bind_Ret by (unfold query; rewrite Es; reflexivity).
    destruct (update_loop atoms beta gamma x a r V_x T) as [[[]|e] T1] eqn:El.
    + right. exists V_x, T1. split; [reflexivity|]. split; [exact El|].
      erewrite bind_Ret by exact El. reflexivity.
    + left. exists e, T1. split; [eapply quiet_update_loop; eauto|].
      apply bind_Raise. exact El.
  - left. exists e, T. split; [eapply oquiet_sup_q; eauto|].
    apply bind_Raise. unfold query. rewrite Es. reflexivity.
Qed.

(** C8. [update] raises [AssertionError] exactly when its loop has completed
    and the updated cell then has [V[0] > V[-1]]; it returns normally exactly
    when the loop has completed and [V[0] <= V[-1]] holds.  Either way the
    table it leaves is the one the loop produced. *)
Theorem update_assertion (NB : nat) (atoms : list Q) (beta gamma : Q)
  (ACTIONS : list Z) (x : State) (a : Z) (x_ : State) (r : Q) (T T' : Table) :
  (update NB atoms beta gamma ACTIONS x a x_ r T = (Raise AssertionError, T') <->
   exists V_x first last,
     sup_q NB atoms ACTIONS T x_ = Ret V_x /\
     update_loop atoms beta gamma x a r V_x T = (Ret tt, T') /\
     read_V x a 0 T' = (Ret first, T') /\
     read_V x a (-1) T' = (Ret last, T') /\
     last < first) /\
  (update NB atoms beta gamma ACTIONS x a x_ r T = (Ret tt, T') <->
   exists V_x first last,
     sup_q NB atoms ACTIONS T x_ = Ret V_x /\
     update_loop atoms beta gamma x a r V_x T = (Ret tt, T') /\
     read_V x a 0 T' = (Ret first, T') /\
     read_V x a (-1) T' = (Ret last, T') /\
     first <= last).
Proof.
  assert (Hback : forall V_x, sup_q NB atoms ACTIONS T x_ = Ret V_x ->
            update_loop atoms beta gamma x a r V_x T = (Ret tt, T') ->
            update NB atoms beta gamma ACTIONS x a x_ r T = update_assert x a T').
  { intros V_x Hs Hl. unfold update.
    erewrite bind_Ret by (unfold query; rewrite Hs; reflexivity).
    erewrite bind_Ret by exact Hl. reflexivity. }
  assert (Hassert : forall first last,
            read_V x a 0 T' = (Ret first, T') ->
            read_V x a (-1) T' = (Ret last, T') ->
            update_assert x a T'
            = (if Qle_bool first last then Ret tt else Raise AssertionError, T')).
  { intros first last H1 H2. unfold update_assert.
    rewrite (bind_Ret _ _ _ _ _ H1), (bind_Ret _ _ _ _ _ H2).
    destruct (Qle_bool first last); reflexivity. }
  split; split.
  - intros H.
    destruct (update_cases NB atoms beta gamma ACTIONS x a x_ r T)
      as [(e & T1 & He & Hu) | (V_x & T1 & Hs & Hl & Hu)]; [congruence|].
    rewrite Hu in H.
    destruct (update_assert_cases x a T1)
      as [(first & last & H1 & H2 & [[Hle Ha] | [Hlt Ha]]) | (e & He & Ha)];
      rewrite Ha in H; try discriminate.
    + injection H as <-. exists V_x, first, last. auto.
    + injection H as -> _. congruence.
  - intros (V_x & first & last & Hs & Hl & H1 & H2 & Hlt).
    rewrite (Hback V_x Hs Hl), (Hassert first last H1 H2).
    destruct (Qle_bool first last) eqn:E; [|reflexivity].
    apply Qle_bool_iff in E. lra.
  - intros H.
    destruct (update_cases NB atoms beta gamma ACTIONS x a x_ r T)
      as [(e & T1 & He & Hu) | (V_x & T1 & Hs & Hl & Hu)]; [congruence|].
    rewrite Hu in H.
    destruct (update_assert_cases x a T1)
      as [(first & last & H1 & H2 & [[Hle Ha] | [Hlt Ha]]) | (e & He & Ha)];
      rewrite Ha in H; try discriminate.
    injection H as <-. exists V_x, first, last. auto.
  - intros (V_x & first & last & Hs & Hl & H1 & H2 & Hle).
    rewrite (Hback V_x Hs Hl), (Hassert first last H1 H2).
    apply Qle_bool_iff in Hle. rewrite Hle. reflexivity.
Qed.

(** The assertion does fire: a cell whose [V] is [1, 0] at entry still has
    [V[0] > V[-1]] after the loop. *)
Example update_assertion_fires :
  exists T',
    update 2 atoms2 (1#10) 1 [0%Z] origin 0 origin 5
           [[[mkMarkovState [1; 0] [0; 0]]]]
    = (Raise AssertionError, T') /\
    exists ms', Q_get T' 0 0 0 = Ret ms' /\ Qlist_eq (V ms') [12#10; 2#10].
Proof.
  eexists. split; [vm_compute; reflexivity|].
  eexists. split; [vm_compute; reflexivity|]. repeat constructor.
Qed.

(** ** [var_alpha] *)

(** What the code does: on a strictly increasing grid, for [alpha] in
    [[atoms[i-1], atoms[i])], it returns [V[i-1]] of the cell addressed
    [self.Q[x.x, x.y, a]], the two coordinates in the order opposite to
    every other method. *)
Lemma var_alpha_bucket (atoms : list Q) (T : Table) (x : State) (a : Z)
  (alpha : Q) (i : nat) (ms : MarkovState) (v : Q) :
  increasing atoms ->
  (1 <= i)%nat -> (i < length atoms)%nat ->
  nth (i - 1) atoms 0 <= alpha -> alpha < nth i atoms 0 ->
  Q_get T (st_x x) (st_y x) a = Ret ms ->
  nth_error (V ms) (i - 1) = Some v ->
  var_alpha atoms T x a alpha = Ret v.
Proof.
  intros Hinc H1 Hi Hlo Hhi Hg Hv. unfold var_alpha.
  rewrite (scan_atoms_first alpha atoms 0 0 i Hi); [|
    intros k Hk;
    pose proof (increasing_nth_le atoms Hinc k (i - 1) ltac:(lia) ltac:(lia)); lra
    | exact Hhi].
  rewrite Hg. simpl.
  replace (Z.of_nat i - 1)%Z with (Z.of_nat (i - 1)) by lia.
  apply py_index_nat. exact Hv.
Qed.

(** C5 fails on the code.  In the 4-by-6 table, after one [update] of the
    bottom-left state [(y=3, x=0)] with action 0 and reward [-1], the cell of
    that state and action stores [V[0] = -12/10], the quantile of the bucket
    holding [alpha = 1/10]; [var_alpha] returns 0, the entry of the
    untouched cell [(y=0, x=3)].  For the state [(y=0, x=5)] it raises
    [IndexError], the row index 5 being past the height 4. *)
Theorem var_alpha_axis_swap :
  exists T1 ms,
    update 4 atoms4 (1#10) (95#100) ACTIONS4 bottom_left 0 (mkState 2 0) (-(1)) table_4x6
    = (Ret tt, T1) /\
    scan_atoms (1#10) atoms4 0 0 = 1%nat /\
    Q_get T1 (st_y bottom_left) (st_x bottom_left) 0 = Ret ms /\
    nth 0 (V ms) 0 == -(12#10) /\
    var_alpha atoms4 T1 bottom_left 0 (1#10) = Ret 0 /\
    Q_get table_4x6 0 5 0 = Ret (MarkovState_init 4) /\
    var_alpha atoms4 table_4x6 (mkState 0 5) 0 (1#10) = Raise IndexError.
Proof.
  eexists. eexists.
  split; [vm_compute; reflexivity|].
  split; [reflexivity|].
  split; [vm_compute; reflexivity|].
  split; [vm_compute; reflexivity|].
  split; [vm_compute; reflexivity|].
  split; reflexivity.
Qed.

(** ** The learning loop *)

Section Episode.

Variable NB_ATOMS : nat.
Variable atoms : list Q.
Variables beta gamma eps : Q.
Variable ACTIONS : list Z.
Variable Rng : Type.
Variable np_random : Rng -> Q * Rng.
Variable np_choice : list Z -> Rng -> Z * Rng.
Variable w : World Rng.

Local Abbreviation step := (episode_step NB_ATOMS atoms beta gamma eps ACTIONS np_random np_choice w).
Local Abbreviation loop := (episode_loop NB_ATOMS atoms beta gamma eps ACTIONS np_random np_choice w).
Local Abbreviation start := (episode_start atoms eps ACTIONS np_random np_choice w).
Local Abbreviation links :=
  (budget_links NB_ATOMS atoms beta gamma eps ACTIONS Rng np_random np_choice w).

Lemma episode_start_Ret alpha T g c0 :
  start alpha T g = Ret c0 <->
  starts_at atoms eps ACTIONS Rng np_random np_choice w alpha T g c0.
Proof.
  unfold episode_start, starts_at. cbv zeta. split.
  - destruct (next_action_alpha atoms ACTIONS T (initial_state w) alpha) as [greedy|];
      [|discriminate]. simpl.
    destruct (eps_greedy eps np_random np_choice greedy ACTIONS g) as [[a|e] g1] eqn:E;
      [|discriminate].
    destruct (var_alpha atoms T (initial_state w) a alpha) as [s0|] eqn:Ev;
      [|discriminate]. simpl.
    intros [= <-]. exists greedy, a, g1, s0. auto.
  - intros (greedy & a & g1 & s0 & -> & Hg & Hv & ->). simpl.
    rewrite Hg, Hv. reflexivity.
Qed.

(** A completed iteration is one link of the chain. *)
Lemma episode_step_Ret c c1 :
  step c = Ret c1 ->
  exists greedy a g1 t g2 T',
    next_action_s atoms ACTIONS (cfg_Q c) (cfg_x c) (cfg_s c) = Ret greedy /\
    eps_greedy eps np_random np_choice greedy ACTIONS (cfg_rng c) = (Ret a, g1) /\
    sample_transition w (cfg_x c) a g1 = (t, g2) /\
    update NB_ATOMS atoms beta gamma ACTIONS (cfg_x c) a (t_state t) (t_reward t) (cfg_Q c)
    = (Ret tt, T') /\
    c1 = mkConfig T' g2 (t_state t) ((cfg_s c - t_reward t) / gamma).
Proof.
  unfold episode_step.
  destruct (next_action_s atoms ACTIONS (cfg_Q c) (cfg_x c) (cfg_s c)) as [greedy|];
    [|discriminate]. simpl.
  destruct (eps_greedy eps np_random np_choice greedy ACTIONS (cfg_rng c))
    as [[a|e] g1] eqn:E; [|discriminate].
  destruct (sample_transition w (cfg_x c) a g1) as [t g2] eqn:Et.
  destruct (update NB_ATOMS atoms beta gamma ACTIONS (cfg_x c) a (t_state t) (t_reward t)
              (cfg_Q c)) as [[[]|e] T'] eqn:Eu; [|discriminate].
  intros [= <-]. exists greedy, a, g1, t, g2, T'. auto.
Qed.




End Episode.


(** The episode of that witness, spelt out: it returns at the goal after two
    iterations; the budget starts at [var_alpha = V[0] = 3], becomes
    [(3 - (-1)) / gamma = 80/19] after the first transition and
    [(80/19 - (-2)) / gamma = 2360/361] after the second. *)
Example episode_on_walk :
  exists c0 c1 c2,
    episode 2 atoms2 (1#10) (95#100) (1#10) [0%Z] still_random first_choice walk
            (1#10) 100 table_walk 0%nat = Ret c2 /\
    starts_at atoms2 (1#10) [0%Z] nat still_random first_choice walk
              (1#10) table_walk 0%nat c0 /\
    budget_links 2 atoms2 (1#10) (95#100) (1#10) [0%Z] nat still_random first_choice
                 walk 1 c0 c1 /\
    budget_links 2 atoms2 (1#10) (95#100) (1#10) [0%Z] nat still_random first_choice
                 walk 1 c1 c2 /\
    cfg_s c0 == 3 /\ cfg_x c0 = mkState 0 0 /\
    cfg_s c1 == 80#19 /\ cfg_x c1 = mkState 0 1 /\
    cfg_s c2 == 2360#361 /\ cfg_x c2 = mkState 0 2.
Proof.
  eexists. eexists. eexists.
  split; [vm_compute; reflexivity|].
  split.
  { eexists. eexists. eexists. eexists.
    split; [vm_compute; reflexivity|].
    split; [vm_compute; reflexivity|].
    split; [vm_compute; reflexivity|]. reflexivity. }
  split.
  { eapply links_step; [reflexivity | vm_compute; reflexivity | vm_compute; reflexivity
                        | vm_compute; reflexivity | vm_compute; reflexivity |].
    apply links_none. }
  split.
  { eapply links_step; [reflexivity | vm_compute; reflexivity | vm_compute; reflexivity
                        | vm_compute; reflexivity | vm_compute; reflexivity |].
    apply links_none. }
  repeat split; reflexivity.
Qed.

(** With the step cap at 1 the same episode stops after one iteration, away
    from the goal. *)
Example episode_on_walk_capped :
  exists c1,
    episode 2 atoms2 (1#10) (95#100) (1#10) [0%Z] still_random first_choice walk
            (1#10) 1 table_walk 0%nat = Ret c1 /\
    cfg_x c1 = mkState 0 1 /\ cfg_s c1 == 80#19 /\
    existsb (State_eqb (cfg_x c1)) (goal_states walk) = false.
Proof.
  eexists. split; [vm_compute; reflexivity|]. repeat split; reflexivity.
Qed.

(** One episode in the corridor: the budget starts at [var_alpha = 0], the
    only transition has reward [-1], and the episode ends at the goal with
    [s = (0 - (-1)) / gamma]. *)
Example episode_in_corridor :
  exists c',
    episode 2 atoms2 (1#10) (95#100) (1#10) [0%Z] still_random first_choice corridor
            (1#10) 100 table_1x2 0%nat = Ret c' /\
    cfg_x c' = mkState 0 1 /\
    cfg_s c' == 100#95.
Proof.
  eexists. split; [vm_compute; reflexivity|]. split; reflexivity.
Qed.

(** * Further properties of the code *)

(** ** Atom masses *)

Lemma Qsum_atom_p_cons a b t :
  Qsum (atom_p (a :: b :: t)) == (b - a) + Qsum (atom_p (b :: t)).
Proof. rewrite atom_p_cons. reflexivity. Qed.

(** [atom_p] (line 15) holds one mass per pair of consecutive atoms, mass
    [i] being [atoms[i+1] - atoms[i]], and the masses sum to
    [atoms[-1] - atoms[0]]: to 1 on a grid from 0 to 1. *)
Theorem atom_p_telescopes (a : Q) (t : list Q) :
  length (atom_p (a :: t)) = length t /\
  (forall i, (i < length t)%nat ->
     nth i (atom_p (a :: t)) 0 = nth (S i) (a :: t) 0 - nth i (a :: t) 0) /\
  Qsum (atom_p (a :: t)) == List.last (a :: t) 0 - a.
Proof.
  split; [rewrite length_atom_p; reflexivity|].
  split; [intros i Hi; apply nth_atom_p; simpl; lia|].
  revert a; induction t as [|b t IH]; intros a.
  - simpl. lra.
  - rewrite Qsum_atom_p_cons, IH.
    change (List.last (a :: b :: t) 0) with (List.last (b :: t) 0). lra.
Qed.

(** ** Lower partial expectation for any order of [V] *)

Lemma lower_partial_sum_nonpos s ps :
  Forall (fun p => 0 <= p) ps -> forall vs, lower_partial_sum s ps vs <= 0.
Proof.
  induction 1 as [|p ps Hp _ IH]; intros [|v vs]; simpl; try lra.
  specialize (IH vs). destruct (Qltb v s) eqn:E; [|lra].
  apply Qltb_lt in E. nra.
Qed.

Lemma e_min_loop_ge_sum s ps :
  Forall (fun p => 0 <= p) ps ->
  forall vs e, e + lower_partial_sum s ps vs <= e_min_loop s e ps vs.
Proof.
  induction 1 as [|p ps Hp Hps IH]; intros [|v vs] e; simpl; try lra.
  destruct (Qltb v s) eqn:E.
  - specialize (IH vs (e + p * (v - s))). lra.
  - pose proof (lower_partial_sum_nonpos s ps Hps vs). lra.
Qed.

(** With non-negative atom masses and [V] in any order, [e_min_s(s)] lies
    between the sum of [mass[i] * (V[i] - s)] over all atoms with
    [V[i] < s] and 0: stopping at the first atom at or above [s] can only
    leave non-positive terms out. *)
Theorem e_min_s_between (atoms : list Q) (ms : MarkovState) (s : Q) :
  Forall (fun p => 0 <= p) (atom_p atoms) ->
  lower_partial_sum s (atom_p atoms) (V ms) <= e_min_s atoms ms s /\
  e_min_s atoms ms s <= 0.
Proof.
  intros Hp. unfold e_min_s. split.
  - pose proof (e_min_loop_ge_sum s (atom_p atoms) Hp (V ms) 0). lra.
  - apply e_min_loop_le_acc. exact Hp.
Qed.

Lemma e_min_s_between_witness :
  lower_partial_sum 2 (atom_p atoms2) [3; 1] <= e_min_s atoms2 (mkMarkovState [3; 1] [0; 0]) 2 /\
  e_min_s atoms2 (mkMarkovState [3; 1] [0; 0]) 2 <= 0.
Proof.
  apply (e_min_s_between atoms2 (mkMarkovState [3; 1] [0; 0]) 2).
  repeat constructor; discriminate.
Defined.

(** ** [np.argmax] and the two greedy policies *)

Lemma argmax_from_spec l :
  forall pre best besti,
    (besti < length pre)%nat ->
    nth besti pre 0 = best ->
    (forall j, (j < length pre)%nat -> nth j pre 0 <= best) ->
    (forall j, (j < besti)%nat -> nth j pre 0 < best) ->
    let r := argmax_from best besti (length pre) l in
    (r < length (pre ++ l))%nat /\
    (forall j, (j < length (pre ++ l))%nat -> nth j (pre ++ l) 0 <= nth r (pre ++ l) 0) /\
    (forall j, (j < r)%nat -> nth j (pre ++ l) 0 < nth r (pre ++ l) 0).
Proof.
  induction l as [|h t IH]; intros pre best besti Hb Hbest Hle Hlt; simpl.
  - rewrite app_nil_r. rewrite Hbest. repeat split; auto.
  - assert (Happ : pre ++ h :: t = (pre ++ [h]) ++ t) by (rewrite <- app_assoc; reflexivity).
    assert (Hlen : length (pre ++ [h]) = S (length pre)) by (rewrite length_app; simpl; lia).
    assert (Hpre : forall j, (j < length pre)%nat -> nth j (pre ++ [h]) 0 = nth j pre 0)
      by (intros j Hj; apply app_nth1; exact Hj).
    assert (Hh : nth (length pre) (pre ++ [h]) 0 = h)
      by (rewrite app_nth2, Nat.sub_diag by lia; reflexivity).
    cbv zeta. destruct (Qltb best h) eqn:E.
    + apply Qltb_lt in E.
      assert (R := IH (pre ++ [h]) h (length pre)). cbv zeta in R.
      rewrite Hlen, <- Happ in R. apply R.
      * lia.
      * exact Hh.
      * intros j Hj. destruct (Nat.eq_dec j (length pre)) as [->|Hne].
        -- rewrite Hh. lra.
        -- rewrite Hpre by lia. specialize (Hle j ltac:(lia)). lra.
      * intros j Hj. rewrite Hpre by lia. specialize (Hle j ltac:(lia)). lra.
    + apply Qltb_ge in E.
      assert (R := IH (pre ++ [h]) best besti). cbv zeta in R.
      rewrite Hlen, <- Happ in R. apply R.
      * lia.
      * rewrite Hpre by lia. exact Hbest.
      * intros j Hj. destruct (Nat.eq_dec j (length pre)) as [->|Hne].
        -- rewrite Hh. exact E.
        -- rewrite Hpre by lia. apply Hle. lia.
      * intros j Hj. rewrite Hpre by lia. apply Hlt. exact Hj.
Qed.

Lemma np_argmax_spec l :
  l <> [] ->
  exists r,
    np_argmax l = Ret (Z.of_nat r) /\
    (r < length l)%nat /\
    (forall j, (j < length l)%nat -> nth j l 0 <= nth r l 0) /\
    (forall j, (j < r)%nat -> nth j l 0 < nth r l 0).
Proof.
  destruct l as [|h t]; [congruence|]. intros _.
  exists (argmax_from h 0 1 t). split; [reflexivity|].
  apply (argmax_from_spec t [h] h 0%nat).
  - simpl; lia.
  - reflexivity.
  - intros j Hj. simpl in Hj. replace j with 0%nat by lia. simpl. lra.
  - intros j Hj. lia.
Qed.

(** [next_action_s] (lines 56-58), where every action has a cell at [x]:
    it returns a position in [ACTIONS], the first one whose cell has the
    largest [e_min_s(s)]. *)
Theorem next_action_s_first_best (atoms : list Q) (ACTIONS : list Z) (T : Table)
  (x : State) (s : Q) (cells : list MarkovState) :
  omap (fun a => Q_get T (st_y x) (st_x x) a) ACTIONS = Ret cells ->
  cells <> [] ->
  exists r best,
    next_action_s atoms ACTIONS T x s = Ret (Z.of_nat r) /\
    (r < length ACTIONS)%nat /\
    nth_error cells r = Some best /\
    Forall (fun ms => e_min_s atoms ms s <= e_min_s atoms best s) cells /\
    Forall (fun ms => e_min_s atoms ms s < e_min_s atoms best s) (firstn r cells).
Proof.
  intros Hcells Hne.
  set (vals := map (fun ms => e_min_s atoms ms s) cells).
  assert (Hyc : omap (fun a => let? ms := Q_get T (st_y x) (st_x x) a in
                               Ret (e_min_s atoms ms s)) ACTIONS = Ret vals).
  { apply (omap_then _ _ (fun ms => e_min_s atoms ms s) _ _ Hcells).
    apply Forall_forall. reflexivity. }
  destruct (np_argmax_spec vals) as (r & Hr & Hlt & Hmax & Hfirst).
  { unfold vals. destruct cells; [congruence | discriminate]. }
  assert (Hlen : length vals = length cells) by (unfold vals; apply length_map).
  assert (Hnth : forall j, (j < length cells)%nat ->
            nth j vals 0 = e_min_s atoms (nth j cells (mkMarkovState [] [])) s).
  { intros j Hj. unfold vals.
    rewrite (nth_indep _ 0 (e_min_s atoms (mkMarkovState [] []) s))
      by (rewrite length_map; exact Hj).
    exact (map_nth (fun ms => e_min_s atoms ms s) cells (mkMarkovState [] []) j). }
  exists r, (nth r cells (mkMarkovState [] [])).
  split; [unfold next_action_s; rewrite Hyc; exact Hr|].
  split; [rewrite <- (omap_length _ _ _ Hcells); lia|].
  split; [apply nth_error_nth'; lia|].
  rewrite <- (Hnth r) by lia. split.
  - apply Forall_forall. intros ms Hin.
    destruct (In_nth _ _ (mkMarkovState [] []) Hin) as (j & Hj & <-).
    rewrite <- (Hnth j Hj). apply Hmax. lia.
  - apply Forall_forall. intros ms Hin.
    destruct (In_nth _ _ (mkMarkovState [] []) Hin) as (j & Hj & <-).
    rewrite length_firstn in Hj.
    rewrite nth_firstn. replace (j <? r)%nat with true by (symmetry; apply Nat.ltb_lt; lia).
    rewrite <- (Hnth j) by lia. apply Hfirst. lia.
Qed.

Lemma next_action_s_first_best_witness :
  exists r best,
    next_action_s atoms2 [0%Z; 1%Z]
      [[[mkMarkovState [0; 0] [0; 0]; mkMarkovState [1; 1] [0; 0]]]] origin (1#2)
    = Ret (Z.of_nat r) /\
    (r < length [0%Z; 1%Z])%nat /\
    nth_error [mkMarkovState [0; 0] [0; 0]; mkMarkovState [1; 1] [0; 0]] r = Some best /\
    Forall (fun ms => e_min_s atoms2 ms (1#2) <= e_min_s atoms2 best (1#2))
           [mkMarkovState [0; 0] [0; 0]; mkMarkovState [1; 1] [0; 0]] /\
    Forall (fun ms => e_min_s atoms2 ms (1#2) < e_min_s atoms2 best (1#2))
           (firstn r [mkMarkovState [0; 0] [0; 0]; mkMarkovState [1; 1] [0; 0]]).
Proof.
  apply (next_action_s_first_best atoms2 [0%Z; 1%Z]
           [[[mkMarkovState [0; 0] [0; 0]; mkMarkovState [1; 1] [0; 0]]]] origin (1#2)
           [mkMarkovState [0; 0] [0; 0]; mkMarkovState [1; 1] [0; 0]]).
  - reflexivity.
  - discriminate.
Defined.

Lemma argmax_of_cells (val : MarkovState -> Q) (cells : list MarkovState) :
  cells <> [] ->
  exists r best,
    np_argmax (map val cells) = Ret (Z.of_nat r) /\
    (r < length cells)%nat /\
    nth_error cells r = Some best /\
    Forall (fun ms => val ms <= val best) cells /\
    Forall (fun ms => val ms < val best) (firstn r cells).
Proof.
  intros Hne. set (d := mkMarkovState [] []).
  destruct (np_argmax_spec (map val cells)) as (r & Hr & Hlt & Hmax & Hfirst).
  { destruct cells; [congruence | discriminate]. }
  rewrite length_map in Hlt, Hmax.
  assert (Hnth : forall j, (j < length cells)%nat ->
            nth j (map val cells) 0 = val (nth j cells d)).
  { intros j Hj. rewrite (nth_indep _ 0 (val d)) by (rewrite length_map; exact Hj).
    exact (map_nth val cells d j). }
  exists r, (nth r cells d).
  split; [exact Hr|]. split; [exact Hlt|].
  split; [apply nth_error_nth'; exact Hlt|].
  rewrite <- (Hnth r Hlt). split; apply Forall_forall; intros ms Hin.
  - destruct (In_nth _ _ d Hin) as (j & Hj & <-).
    rewrite <- (Hnth j Hj). apply Hmax. exact Hj.
  - destruct (In_nth _ _ d Hin) as (j & Hj & <-).
    rewrite length_firstn in Hj. rewrite nth_firstn.
    replace (j <? r)%nat with true by (symmetry; apply Nat.ltb_lt; lia).
    rewrite <- (Hnth j) by lia. apply Hfirst. lia.
Qed.

(** ** [yc_alpha] at and beyond the atoms *)

Lemma scan_atoms_range alpha l :
  l <> [] ->
  forall start cur,
    (start <= scan_atoms alpha l start cur <= start + length l - 1)%nat.
Proof.
  induction l as [|a t IH]; [congruence|]. intros _ start cur. simpl.
  destruct (Qltb alpha a); [lia|].
  destruct t as [|b t]; [simpl; lia|].
  specialize (IH ltac:(discriminate) (S start) start). simpl length in *. lia.
Qed.

Lemma scan_atoms_no_break alpha l :
  Forall (fun a => a <= alpha) l ->
  l <> [] ->
  forall start cur, scan_atoms alpha l start cur = (start + length l - 1)%nat.
Proof.
  induction 1 as [|a t Ha Ht IH]; [congruence|]. intros _ start cur. simpl.
  apply Qltb_ge in Ha. rewrite Ha.
  destruct t as [|b t]; [simpl; lia|].
  rewrite (IH ltac:(discriminate)). simpl length. lia.
Qed.

(** What [yc_alpha] computes once its loop has stopped at [i]. *)
Lemma yc_alpha_at (atoms : list Q) (ms : MarkovState) (K : nat) (alpha : Q) (i : nat) :
  length atoms = S K ->
  length (yC ms) = K ->
  scan_atoms alpha (tl atoms) 1 0 = i ->
  (1 <= i <= K)%nat ->
  yc_alpha atoms ms alpha
  = Ret (if Nat.eqb i 1
         then (alpha - nth 0 atoms 0) / (nth 1 atoms 0 - nth 0 atoms 0) * nth 0 (yC ms) 0
         else nth (i - 2) (yC ms) 0
              + (alpha - nth (i - 1) atoms 0) / (nth i atoms 0 - nth (i - 1) atoms 0)
                * (nth (i - 1) (yC ms) 0 - nth (i - 2) (yC ms) 0)).
Proof.
  intros Hlen HK Hscan Hi. unfold yc_alpha. rewrite Hscan. clear Hscan.
  replace (Z.of_nat i - 1)%Z with (Z.of_nat (i - 1)) by lia.
  rewrite (py_index_nat atoms (i - 1) _ (nth_error_nth_Q atoms (i - 1) ltac:(lia))).
  rewrite (py_index_nat atoms i _ (nth_error_nth_Q atoms i ltac:(lia))).
  simpl obind.
  destruct (Nat.eqb i 1) eqn:E.
  - apply Nat.eqb_eq in E. subst i. simpl Z.eqb. cbv iota.
    rewrite (py_index_nat (yC ms) (1 - 1) _ (nth_error_nth_Q (yC ms) (1 - 1) ltac:(lia))).
    reflexivity.
  - apply Nat.eqb_neq in E.
    replace (Z.of_nat i =? 1)%Z with false by (symmetry; apply Z.eqb_neq; lia).
    replace (Z.of_nat i - 2)%Z with (Z.of_nat (i - 2)) by lia.
    rewrite (py_index_nat (yC ms) (i - 2) _ (nth_error_nth_Q (yC ms) (i - 2) ltac:(lia))).
    rewrite (py_index_nat (yC ms) (i - 1) _ (nth_error_nth_Q (yC ms) (i - 1) ltac:(lia))).
    reflexivity.
Qed.

Lemma yc_alpha_returns (atoms : list Q) (ms : MarkovState) (K : nat) (alpha : Q) :
  length atoms = S K ->
  length (yC ms) = K ->
  (1 <= K)%nat ->
  exists r, yc_alpha atoms ms alpha = Ret r.
Proof.
  intros Hlen HK H1.
  assert (Htl : length (tl atoms) = K) by (destruct atoms; simpl in *; lia).
  pose proof (scan_atoms_range alpha (tl atoms)
                ltac:(destruct (tl atoms); [simpl in Htl; lia | discriminate]) 1%nat 0%nat) as Hr.
  eexists. apply (yc_alpha_at atoms ms K alpha _ Hlen HK eq_refl). lia.
Qed.

(** [yc_alpha] (lines 104-114) on a grid of [K+1 >= 2] atoms and [K] stored
    entries returns for every [alpha], inside (0,1) or not: below
    [atoms[1]] it follows the first segment, and on a strictly increasing
    grid at or above the last atom it follows the last segment (the first
    one when [K = 1]). *)
Theorem yc_alpha_extrapolates (atoms : list Q) (ms : MarkovState) (K : nat) (alpha : Q) :
  length atoms = S K ->
  length (yC ms) = K ->
  (1 <= K)%nat ->
  exists r,
    yc_alpha atoms ms alpha = Ret r /\
    (alpha < nth 1 atoms 0 ->
       r = (alpha - nth 0 atoms 0) / (nth 1 atoms 0 - nth 0 atoms 0) * nth 0 (yC ms) 0) /\
    (increasing atoms -> nth K atoms 0 <= alpha ->
       r = if Nat.eqb K 1
           then (alpha - nth 0 atoms 0) / (nth 1 atoms 0 - nth 0 atoms 0) * nth 0 (yC ms) 0
           else nth (K - 2) (yC ms) 0
                + (alpha - nth (K - 1) atoms 0) / (nth K atoms 0 - nth (K - 1) atoms 0)
                  * (nth (K - 1) (yC ms) 0 - nth (K - 2) (yC ms) 0)).
Proof.
  intros Hlen HK H1.
  destruct (yc_alpha_returns atoms ms K alpha Hlen HK H1) as (r & Hr).
  exists r. split; [exact Hr|].
  destruct atoms as [|a0 [|a1 t]]; try (simpl in Hlen; lia).
  split.
  - intros Hlt. simpl nth in Hlt.
    assert (Hscan : scan_atoms alpha (tl (a0 :: a1 :: t)) 1 0 = 1%nat).
    { simpl. apply Qltb_lt in Hlt. rewrite Hlt. reflexivity. }
    rewrite (yc_alpha_at _ ms K alpha 1 Hlen HK Hscan ltac:(lia)) in Hr.
    injection Hr as <-. reflexivity.
  - intros Hinc Hge.
    assert (Hscan : scan_atoms alpha (tl (a0 :: a1 :: t)) 1 0 = K).
    { rewrite scan_atoms_no_break; [simpl in *; lia | | discriminate].
      apply Forall_forall. intros a Hin.
      destruct (In_nth _ _ 0 Hin) as (j & Hj & <-). simpl in Hj.
      pose proof (increasing_nth_le (a0 :: a1 :: t) Hinc (S j) K
                    ltac:(simpl in *; lia) ltac:(simpl in *; lia)) as H.
      change (nth (S j) (a0 :: a1 :: t) 0) with (nth j (a1 :: t) 0) in H.
      simpl tl. lra. }
    rewrite (yc_alpha_at _ ms K alpha K Hlen HK Hscan ltac:(lia)) in Hr.
    injection Hr as <-. reflexivity.
Qed.

Lemma yc_alpha_extrapolates_witness :
  exists r,
    yc_alpha atoms4 (mkMarkovState [0; 0; 0; 0] [1; 3; 4; 6]) 2 = Ret r /\
    (2 < nth 1 atoms4 0 ->
       r = (2 - nth 0 atoms4 0) / (nth 1 atoms4 0 - nth 0 atoms4 0) * nth 0 [1; 3; 4; 6] 0) /\
    (increasing atoms4 -> nth 4 atoms4 0 <= 2 ->
       r = if Nat.eqb 4 1
           then (2 - nth 0 atoms4 0) / (nth 1 atoms4 0 - nth 0 atoms4 0) * nth 0 [1; 3; 4; 6] 0
           else nth (4 - 2) [1; 3; 4; 6] 0
                + (2 - nth (4 - 1) atoms4 0) / (nth 4 atoms4 0 - nth (4 - 1) atoms4 0)
                  * (nth (4 - 1) [1; 3; 4; 6] 0 - nth (4 - 2) [1; 3; 4; 6] 0)).
Proof.
  apply (yc_alpha_extrapolates atoms4 (mkMarkovState [0; 0; 0; 0] [1; 3; 4; 6]) 4 2).
  - reflexivity.
  - reflexivity.
  - lia.
Defined.

(** On a strictly increasing grid [yc_alpha] passes through every anchor:
    it is 0 at [atoms[0]] and [yC[j-1]] at [atoms[j]] for [j = 1..K], the
    last atom included although it is not below any atom. *)
Theorem yc_alpha_at_anchors (atoms : list Q) (ms : MarkovState) (K j : nat) :
  increasing atoms ->
  length atoms = S K ->
  length (yC ms) = K ->
  (1 <= K)%nat ->
  (j <= K)%nat ->
  exists r,
    yc_alpha atoms ms (nth j atoms 0) = Ret r /\
    r == match j with O => 0 | S j' => nth j' (yC ms) 0 end.
Proof.
  intros Hinc Hlen HK H1 Hj.
  assert (Hstep : forall i, (S i < length atoms)%nat -> ~ nth (S i) atoms 0 - nth i atoms 0 == 0).
  { intros i Hi. pose proof (increasing_nth_lt atoms Hinc i Hi). lra. }
  destruct (Nat.eq_dec j K) as [->|HjK].
  - (* the last atom: the loop runs out *)
    assert (Hscan : scan_atoms (nth K atoms 0) (tl atoms) 1 0 = K).
    { destruct atoms as [|a0 t]; [simpl in Hlen; lia|].
      rewrite scan_atoms_no_break; [simpl in *; lia | |
        destruct t; [simpl in Hlen; lia | discriminate]].
      apply Forall_forall. intros a Hin.
      destruct (In_nth _ _ 0 Hin) as (i & Hi & <-). simpl in Hi.
      pose proof (increasing_nth_le (a0 :: t) Hinc (S i) K ltac:(simpl in *; lia)
                    ltac:(simpl in *; lia)) as H.
      simpl nth at 1 in H. simpl tl. exact H. }
    rewrite (yc_alpha_at atoms ms K _ K Hlen HK Hscan ltac:(lia)).
    eexists. split; [reflexivity|].
    destruct K as [|[|K']]; [lia | |].
    + simpl Nat.eqb. cbv iota. specialize (Hstep 0%nat ltac:(lia)). field. exact Hstep.
    + simpl Nat.eqb. cbv iota.
      replace (S (S K') - 2)%nat with K' by lia.
      replace (S (S K') - 1)%nat with (S K') by lia.
      specialize (Hstep (S K') ltac:(lia)). field. exact Hstep.
  - (* an atom below the last: the loop stops at the next one *)
    assert (Hscan : scan_atoms (nth j atoms 0) (tl atoms) 1 0 = S j).
    { apply scan_atoms_interval; auto; try lia.
      - replace (S j - 1)%nat with j by lia. lra.
      - apply increasing_nth_lt; auto. lia. }
    rewrite (yc_alpha_at atoms ms K _ (S j) Hlen HK Hscan ltac:(lia)).
    eexists. split; [reflexivity|].
    destruct j as [|j'].
    + simpl Nat.eqb. cbv iota. specialize (Hstep 0%nat ltac:(lia)). field. exact Hstep.
    + simpl Nat.eqb. cbv iota.
      replace (S (S j') - 2)%nat with j' by lia.
      replace (S (S j') - 1)%nat with (S j') by lia.
      specialize (Hstep (S j') ltac:(lia)). field. exact Hstep.
Qed.

Lemma yc_alpha_at_anchors_witness :
  exists r,
    yc_alpha atoms4 (mkMarkovState [0; 0; 0; 0] [1; 3; 4; 6]) (nth 4 atoms4 0) = Ret r /\
    r == match 4%nat with O => 0 | S j' => nth j' [1; 3; 4; 6] 0 end.
Proof.
  apply (yc_alpha_at_anchors atoms4 (mkMarkovState [0; 0; 0; 0] [1; 3; 4; 6]) 4 4).
  - simpl. repeat split; reflexivity.
  - reflexivity.
  - reflexivity.
  - lia.
  - lia.
Defined.

(** [next_action_alpha] (lines 52-54), where every action has a cell at [x]
    with [K] CVaR entries on a grid of [K+1 >= 2] atoms: it returns for every
    [alpha] a position in [ACTIONS], the first one whose cell has the largest
    [yc_alpha(alpha)]. *)
Theorem next_action_alpha_first_best (atoms : list Q) (ACTIONS : list Z) (T : Table)
  (x : State) (alpha : Q) (K : nat) (cells : list MarkovState) :
  omap (fun a => Q_get T (st_y x) (st_x x) a) ACTIONS = Ret cells ->
  cells <> [] ->
  length atoms = S K ->
  (1 <= K)%nat ->
  Forall (fun ms => length (yC ms) = K) cells ->
  exists r best top,
    next_action_alpha atoms ACTIONS T x alpha = Ret (Z.of_nat r) /\
    (r < length ACTIONS)%nat /\
    nth_error cells r = Some best /\
    yc_alpha atoms best alpha = Ret top /\
    Forall (fun ms => exists v, yc_alpha atoms ms alpha = Ret v /\ v <= top) cells /\
    Forall (fun ms => exists v, yc_alpha atoms ms alpha = Ret v /\ v < top) (firstn r cells).
Proof.
  intros Hcells Hne Hlen H1 HK.
  set (val := fun ms => match yc_alpha atoms ms alpha with Ret v => v | Raise _ => 0 end).
  assert (Hval : Forall (fun ms => yc_alpha atoms ms alpha = Ret (val ms)) cells).
  { eapply Forall_impl; [|exact HK]. simpl. intros ms Hms. unfold val.
    destruct (yc_alpha_returns atoms ms K alpha Hlen Hms H1) as (v & ->). reflexivity. }
  destruct (argmax_of_cells val cells Hne) as (r & best & Hr & Hlt & Hbest & Hmax & Hfirst).
  exists r, best, (val best).
  split.
  { unfold next_action_alpha.
    rewrite (omap_then _ _ val _ _ Hcells Hval). exact Hr. }
  split; [rewrite <- (omap_length _ _ _ Hcells); exact Hlt|].
  split; [exact Hbest|].
  rewrite Forall_forall in Hval.
  split; [apply Hval; eapply nth_error_In; eauto|].
  split; apply Forall_forall; intros ms Hin.
  - exists (val ms). split; [apply Hval; exact Hin|].
    rewrite Forall_forall in Hmax. apply Hmax. exact Hin.
  - exists (val ms). split.
    + apply Hval. rewrite <- (firstn_skipn r cells). apply in_or_app. left. exact Hin.
    + rewrite Forall_forall in Hfirst. apply Hfirst. exact Hin.
Qed.

Lemma next_action_alpha_first_best_witness :
  exists r best top,
    next_action_alpha atoms2 [0%Z; 1%Z]
      [[[mkMarkovState [0; 0] [1; 5]; mkMarkovState [0; 0] [2; 3]]]] origin (1#4)
    = Ret (Z.of_nat r) /\
    (r < length [0%Z; 1%Z])%nat /\
    nth_error [mkMarkovState [0; 0] [1; 5]; mkMarkovState [0; 0] [2; 3]] r = Some best /\
    yc_alpha atoms2 best (1#4) = Ret top /\
    Forall (fun ms => exists v, yc_alpha atoms2 ms (1#4) = Ret v /\ v <= top)
           [mkMarkovState [0; 0] [1; 5]; mkMarkovState [0; 0] [2; 3]] /\
    Forall (fun ms => exists v, yc_alpha atoms2 ms (1#4) = Ret v /\ v < top)
           (firstn r [mkMarkovState [0; 0] [1; 5]; mkMarkovState [0; 0] [2; 3]]).
Proof.
  apply (next_action_alpha_first_best atoms2 [0%Z; 1%Z]
           [[[mkMarkovState [0; 0] [1; 5]; mkMarkovState [0; 0] [2; 3]]]] origin (1#4) 2
           [mkMarkovState [0; 0] [1; 5]; mkMarkovState [0; 0] [2; 3]]).
  - reflexivity.
  - discriminate.
  - reflexivity.
  - lia.
  - repeat constructor.
Defined.

(** ** [var_alpha] across the grid *)

(** On the marked table, for the state [(y=0, x=1)] and [alpha = 3/10]:
    the bucket is the second one, and the value returned is the 32 of the
    cell in row 1, column 0, neither the 22 of the state's own cell nor a
    neighbouring entry. *)
Lemma var_alpha_bucket_witness :
  var_alpha atoms4 table_marked (mkState 0 1) 0 (3#10) = Ret 32.
Proof.
  apply (var_alpha_bucket atoms4 table_marked (mkState 0 1) 0 (3#10) 2
           (mkMarkovState [31; 32; 33; 34] [0; 0; 0; 0]) 32).
  - simpl. repeat split; reflexivity.
  - lia.
  - simpl; lia.
  - discriminate.
  - reflexivity.
  - reflexivity.
  - reflexivity.
Defined.

Lemma nth_error_last {A : Type} (l : list A) (d : A) :
  l <> [] -> nth_error l (length l - 1) = Some (List.last l d).
Proof.
  induction l as [|a [|b t] IH]; intros H; [congruence | reflexivity |].
  specialize (IH ltac:(discriminate)).
  change (List.last (a :: b :: t) d) with (List.last (b :: t) d).
  rewrite <- IH. simpl. rewrite Nat.sub_0_r. reflexivity.
Qed.

Lemma py_index_last {A : Type} (l : list A) (d : A) :
  l <> [] -> py_index l (-1) = Ret (List.last l d).
Proof.
  intros H. unfold py_index.
  assert (Hlen : (0 < length l)%nat) by (destruct l; [congruence | simpl; lia]).
  replace (-1 <? 0)%Z with true by reflexivity. cbv zeta.
  replace (Z.of_nat (length l) + -1 <? 0)%Z with false by (symmetry; apply Z.ltb_ge; lia).
  replace (Z.to_nat (Z.of_nat (length l) + -1)) with (length l - 1)%nat by lia.
  rewrite (nth_error_last l d H). reflexivity.
Qed.

(** [var_alpha] (lines 69-75) outside the grid, on a cell with [K >= 1]
    quantiles: below the first atom the loop breaks at [i = 0] and [V[i-1]]
    is [V[-1]]; at or above the last atom of a strictly increasing grid the
    loop runs out at [i = K].  Either way the last quantile is returned. *)
Theorem var_alpha_outside_grid (atoms : list Q) (T : Table) (x : State) (a : Z)
  (alpha : Q) (K : nat) (ms : MarkovState) :
  length atoms = S K ->
  (1 <= K)%nat ->
  Q_get T (st_x x) (st_y x) a = Ret ms ->
  length (V ms) = K ->
  alpha < nth 0 atoms 0 \/ (increasing atoms /\ nth K atoms 0 <= alpha) ->
  var_alpha atoms T x a alpha = Ret (List.last (V ms) 0).
Proof.
  intros Hlen H1 Hg HV Hout. unfold var_alpha. rewrite Hg. simpl obind.
  assert (Hne : V ms <> []) by (destruct (V ms); [simpl in HV; lia | discriminate]).
  destruct Hout as [Hlow | [Hinc Hhigh]].
  - destruct atoms as [|a0 t]; [simpl in Hlen; lia|].
    simpl in Hlow. apply Qltb_lt in Hlow. simpl scan_atoms. rewrite Hlow.
    apply py_index_last. exact Hne.
  - rewrite scan_atoms_no_break.
    + replace (Z.of_nat (0 + length atoms - 1) - 1)%Z with (Z.of_nat (length (V ms) - 1)) by lia.
      apply py_index_nat. apply nth_error_last. exact Hne.
    + apply Forall_forall. intros b Hin.
      destruct (In_nth _ _ 0 Hin) as (j & Hj & <-).
      pose proof (increasing_nth_le atoms Hinc j K ltac:(lia) ltac:(lia)). lra.
    + destruct atoms; [simpl in Hlen; lia | discriminate].
Qed.

Lemma var_alpha_outside_grid_witness :
  var_alpha atoms2 [[[mkMarkovState [7; 9] [0; 0]]]] origin 0 (-(1))
  = Ret (List.last (V (mkMarkovState [7; 9] [0; 0])) 0).
Proof.
  apply (var_alpha_outside_grid atoms2 [[[mkMarkovState [7; 9] [0; 0]]]] origin 0 (-(1)) 2
           (mkMarkovState [7; 9] [0; 0])).
  - reflexivity.
  - lia.
  - reflexivity.
  - reflexivity.
  - left. reflexivity.
Defined.

(** ** Where [sup_q] returns *)

Lemma omap_Ret_iff {A B : Type} (f : A -> outcome B) l :
  (exists bs, omap f l = Ret bs) <-> Forall (fun a => exists b, f a = Ret b) l.
Proof.
  induction l as [|a l IH]; simpl.
  - split; [constructor | intros _; eauto].
  - split.
    + intros (bs & H). destruct (f a) as [b|] eqn:E; [|discriminate]. simpl in H.
      destruct (omap f l) as [bs'|]; [|discriminate].
      constructor; [eauto | apply IH; eauto].
    + intros H. inversion H as [|? ? (b & Hb) Hl]; subst.
      apply IH in Hl. destruct Hl as (bs & Hbs). rewrite Hb, Hbs. simpl. eauto.
Qed.

Lemma sup_q_column_iff (ACTIONS : list Z) (T : Table) (x : State) (i : nat) :
  (exists m, (let? col := omap (fun a => let? ms := Q_get T (st_y x) (st_x x) a in
                                         py_index (yC ms) (Z.of_nat i)) ACTIONS in
              np_max col) = Ret m) <->
  ACTIONS <> [] /\
  Forall (fun a => exists ms, Q_get T (st_y x) (st_x x) a = Ret ms /\
                              (i < length (yC ms))%nat) ACTIONS.
Proof.
  assert (Hcell : forall a,
            (exists b, (let? ms := Q_get T (st_y x) (st_x x) a in
                        py_index (yC ms) (Z.of_nat i)) = Ret b) <->
            (exists ms, Q_get T (st_y x) (st_x x) a = Ret ms /\ (i < length (yC ms))%nat)).
  { intros a. destruct (Q_get T (st_y x) (st_x x) a) as [ms|e]; simpl.
    - split.
      + intros (b & Hb). exists ms. split; [reflexivity|].
        destruct (Nat.lt_ge_cases i (length (yC ms))) as [H|H]; [exact H|].
        apply nth_error_None in H. unfold py_index in Hb.
        replace (Z.of_nat i <? 0)%Z with false in Hb by (symmetry; apply Z.ltb_ge; lia).
        cbv zeta in Hb.
        replace (Z.of_nat i <? 0)%Z with false in Hb by (symmetry; apply Z.ltb_ge; lia).
        rewrite Nat2Z.id, H in Hb. discriminate.
      + intros (ms' & [= <-] & Hi). exists (nth i (yC ms) 0).
        apply py_index_nat, nth_error_nth_Q. exact Hi.
    - split; [intros (b & Hb); discriminate | intros (ms & Hms & _); discriminate]. }
  split.
  - intros (m & Hm).
    destruct (omap _ ACTIONS) as [col|] eqn:E; [|discriminate]. simpl in Hm.
    split.
    + intros ->. simpl in E. injection E as <-. discriminate.
    + assert (H : exists bs, omap (fun a => let? ms := Q_get T (st_y x) (st_x x) a in
                                            py_index (yC ms) (Z.of_nat i)) ACTIONS = Ret bs)
        by eauto.
      apply omap_Ret_iff in H. eapply Forall_impl; [|exact H].
      intros a Ha. apply Hcell. exact Ha.
  - intros (Hne & Hall).
    assert (H : exists bs, omap (fun a => let? ms := Q_get T (st_y x) (st_x x) a in
                                          py_index (yC ms) (Z.of_nat i)) ACTIONS = Ret bs).
    { apply omap_Ret_iff. eapply Forall_impl; [|exact Hall].
      intros a Ha. apply Hcell. exact Ha. }
    destruct H as (col & Hcol). rewrite Hcol. simpl.
    destruct col as [|c col].
    + apply omap_length in Hcol. destruct ACTIONS; [congruence | discriminate].
    + simpl. eauto.
Qed.

(** [sup_q] (lines 60-67) returns exactly when [NB_ATOMS] is 0, or there is
    at least one action and every action has a cell at [x] with at least
    [NB_ATOMS] CVaR entries; with atoms to visit and no action it raises
    [ValueError], the maximum of an empty list. *)
Theorem sup_q_returns_iff (NB : nat) (atoms : list Q) (ACTIONS : list Z)
  (T : Table) (x : State) :
  ((exists V_x, sup_q NB atoms ACTIONS T x = Ret V_x) <->
   NB = 0%nat \/
   (ACTIONS <> [] /\
    Forall (fun a => exists ms, Q_get T (st_y x) (st_x x) a = Ret ms /\
                                (NB <= length (yC ms))%nat) ACTIONS)) /\
  (NB <> 0%nat -> sup_q NB atoms [] T x = Raise ValueError).
Proof.
  split.
  - unfold sup_q. split.
    + intros (V_x & H).
      destruct (omap _ (seq 0 NB)) as [yc|] eqn:E; [|discriminate].
      destruct NB as [|n]; [left; reflexivity | right].
      assert (Hall : exists bs, omap
                (fun i => let? col := omap (fun a => let? ms := Q_get T (st_y x) (st_x x) a in
                                                     py_index (yC ms) (Z.of_nat i)) ACTIONS in
                          np_max col) (seq 0 (S n)) = Ret bs) by eauto.
      apply omap_Ret_iff in Hall. rewrite Forall_forall in Hall.
      specialize (Hall n ltac:(apply in_seq; lia)).
      apply sup_q_column_iff in Hall. destruct Hall as [Hne Hall].
      split; [exact Hne|]. eapply Forall_impl; [|exact Hall].
      intros a (ms & Hms & Hi). exists ms. split; [exact Hms | lia].
    + intros Hdom.
      assert (Hall : exists bs, omap
                (fun i => let? col := omap (fun a => let? ms := Q_get T (st_y x) (st_x x) a in
                                                     py_index (yC ms) (Z.of_nat i)) ACTIONS in
                          np_max col) (seq 0 NB) = Ret bs).
      { apply omap_Ret_iff, Forall_forall. intros i Hi. apply in_seq in Hi.
        destruct Hdom as [-> | [Hne Hall]]; [lia|].
        apply sup_q_column_iff. split; [exact Hne|].
        eapply Forall_impl; [|exact Hall].
        intros a (ms & Hms & Hlen). exists ms. split; [exact Hms | lia]. }
      destruct Hall as (bs & ->). simpl. eauto.
  - intros Hnb. destruct NB as [|n]; [congruence|]. reflexivity.
Qed.

Lemma map_nth_seq_id (l : list Q) :
  map (fun i => nth i l 0) (seq 0 (length l)) = l.
Proof.
  apply (nth_ext _ _ 0 0).
  - rewrite length_map, length_seq. reflexivity.
  - intros n Hn. rewrite length_map, length_seq in Hn.
    rewrite (nth_indep _ 0 (nth 0%nat l 0)) by (rewrite length_map, length_seq; exact Hn).
    rewrite (map_nth (fun i => nth i l 0) (seq 0 (length l)) 0%nat n).
    rewrite seq_nth by exact Hn. reflexivity.
Qed.

(** With a single action, [sup_q(x)] is that action's [dist_from_yc()]:
    the supremum over one cell is the cell's own CVaR sequence. *)
Theorem sup_q_single_action (NB : nat) (atoms : list Q) (a : Z) (T : Table)
  (x : State) (ms : MarkovState) :
  Q_get T (st_y x) (st_x x) a = Ret ms ->
  length (yC ms) = NB ->
  sup_q NB atoms [a] T x = Ret (dist_from_yc atoms ms).
Proof.
  intros Hg Hlen. unfold sup_q, dist_from_yc.
  rewrite (omap_Ret_map _ (fun i => nth i (yC ms) 0)).
  - simpl. rewrite <- Hlen, map_nth_seq_id. reflexivity.
  - intros i Hi. apply in_seq in Hi. simpl. rewrite Hg. simpl.
    rewrite (py_index_nat _ _ _ (nth_error_nth_Q (yC ms) i ltac:(lia))). reflexivity.
Qed.

Lemma sup_q_single_action_witness :
  sup_q 2 atoms2 [0%Z] [[[mkMarkovState [0; 0] [1; 5]]]] origin
  = Ret (dist_from_yc atoms2 (mkMarkovState [0; 0] [1; 5])).
Proof.
  apply (sup_q_single_action 2 atoms2 0 [[[mkMarkovState [0; 0] [1; 5]]]] origin
           (mkMarkovState [0; 0] [1; 5])); reflexivity.
Defined.

(** ** When a step of [update] fails *)

Lemma py_index_Raise {A : Type} (l : list A) i e :
  py_index l i = Raise e -> e = IndexError.
Proof.
  unfold py_index. destruct (_ <? 0)%Z; [intros [= <-]; reflexivity|].
  destruct (nth_error _ _); [discriminate | intros [= <-]; reflexivity].
Qed.

Lemma py_index_nat_None {A : Type} (l : list A) (i : nat) :
  (length l <= i)%nat -> py_index l (Z.of_nat i) = Raise IndexError.
Proof.
  intros H. unfold py_index.
  replace (Z.of_nat i <? 0)%Z with false by (symmetry; apply Z.ltb_ge; lia).
  cbv zeta.
  replace (Z.of_nat i <? 0)%Z with false by (symmetry; apply Z.ltb_ge; lia).
  rewrite Nat2Z.id. apply nth_error_None in H. rewrite H. reflexivity.
Qed.

Lemma Q_get_Raise T y x a e : Q_get T y x a = Raise e -> e = IndexError.
Proof.
  unfold Q_get.
  destruct (py_index T y) as [plane|e1] eqn:E1; simpl;
    [|intros [= <-]; eapply py_index_Raise; eauto].
  destruct (py_index plane x) as [line|e2] eqn:E2; simpl;
    [|intros [= <-]; eapply py_index_Raise; eauto].
  apply py_index_Raise.
Qed.

Lemma read_V_missing x a i T e :
  Q_get T (st_y x) (st_x x) a = Raise e -> read_V x a i T = (Raise IndexError, T).
Proof.
  intros H. unfold read_V, query. rewrite H. simpl.
  rewrite (Q_get_Raise _ _ _ _ _ H). reflexivity.
Qed.

(** One atom-target step (lines 40-47) returns exactly when the cell exists
    and has entry [i] in both [V] and [yC]; otherwise it raises [IndexError]
    before any store, leaving the table as it was. *)
Theorem update_step_returns_iff (beta gamma : Q) (x : State) (a : Z) (r v : Q)
  (i : nat) (atom : Q) (T : Table) :
  ((exists ms, Q_get T (st_y x) (st_x x) a = Ret ms /\
               (i < length (V ms))%nat /\ (i < length (yC ms))%nat) /\
   exists T', update_step beta gamma x a r v i atom T = (Ret tt, T')) \/
  (~ (exists ms, Q_get T (st_y x) (st_x x) a = Ret ms /\
                 (i < length (V ms))%nat /\ (i < length (yC ms))%nat) /\
   update_step beta gamma x a r v i atom T = (Raise IndexError, T)).
Proof.
  destruct (Q_get T (st_y x) (st_x x) a) as [ms|e] eqn:Hg.
  - destruct (Nat.lt_ge_cases i (length (V ms))) as [HV|HV].
    + destruct (Nat.lt_ge_cases i (length (yC ms))) as [HY|HY].
      * left. split; [exists ms; auto|].
        destruct (update_step_run x a beta gamma T ms r v i atom _ _ Hg
                    (nth_error_nth_Q (V ms) i HV) (nth_error_nth_Q (yC ms) i HY))
          as (T' & Hrun & _).
        exists T'. exact Hrun.
      * right. split; [intros (ms' & [= <-] & _ & H); lia|].
        unfold update_step. cbv zeta.
        rewrite (bind_Ret _ _ _ _ _ (read_V_Ret x a T ms i _ Hg (nth_error_nth_Q (V ms) i HV))).
        apply bind_Raise. unfold read_yC, query. rewrite Hg. simpl.
        rewrite (py_index_nat_None _ _ HY). reflexivity.
    + right. split; [intros (ms' & [= <-] & H & _); lia|].
      unfold update_step. cbv zeta.
      apply bind_Raise. unfold read_V, query. rewrite Hg. simpl.
      rewrite (py_index_nat_None _ _ HV). reflexivity.
  - right. split; [intros (ms & H & _); discriminate|].
    unfold update_step. cbv zeta.
    apply bind_Raise. eapply read_V_missing; eauto.
Qed.

Lemma for_each_stuck {B : Type} (l : list B) (body : B -> M unit) (T : Table) :
  (forall b, body b T = (Ret tt, T) \/ body b T = (Raise IndexError, T)) ->
  for_each l body T = (Ret tt, T) \/ for_each l body T = (Raise IndexError, T).
Proof.
  intros H. induction l as [|b l IH]; simpl; [left; reflexivity|].
  destruct (H b) as [Hb|Hb].
  - rewrite (bind_Ret _ _ _ _ _ Hb). exact IH.
  - right. apply bind_Raise. exact Hb.
Qed.

(** [update] on a state-action pair that has no cell in the table (an index
    out of range), once [sup_q(x_)] has returned: it raises [IndexError] and
    the table is the one it was given. *)
Theorem update_missing_cell (NB : nat) (atoms : list Q) (beta gamma : Q)
  (ACTIONS : list Z) (x : State) (a : Z) (x_ : State) (r : Q) (T : Table)
  (V_x : list Q) (e : exn) :
  sup_q NB atoms ACTIONS T x_ = Ret V_x ->
  Q_get T (st_y x) (st_x x) a = Raise e ->
  update NB atoms beta gamma ACTIONS x a x_ r T = (Raise IndexError, T).
Proof.
  intros Hs Hg. unfold update.
  erewrite bind_Ret by (unfold query; rewrite Hs; reflexivity).
  assert (Hstep : forall v ia,
            update_step beta gamma x a r v (fst ia) (snd ia) T = (Raise IndexError, T)).
  { intros v ia. unfold update_step. cbv zeta.
    apply bind_Raise. eapply read_V_missing; eauto. }
  assert (Hassert : update_assert x a T = (Raise IndexError, T)).
  { unfold update_assert. apply bind_Raise. eapply read_V_missing; eauto. }
  destruct (for_each_stuck V_x
              (fun v => for_each (enumerate (tl atoms))
                          (fun ia => update_step beta gamma x a r v (fst ia) (snd ia))) T)
    as [Hl|Hl].
  - intros v. apply for_each_stuck. intros ia. right. apply Hstep.
  - unfold update_loop. rewrite (bind_Ret _ _ _ _ _ Hl). exact Hassert.
  - apply bind_Raise. exact Hl.
Qed.

Lemma update_missing_cell_witness :
  update 2 atoms2 (1#10) 1 [0%Z] (mkState 0 7) 0 origin 1 table_1x1
  = (Raise IndexError, table_1x1).
Proof.
  apply (update_missing_cell 2 atoms2 (1#10) 1 [0%Z] (mkState 0 7) 0 origin 1 table_1x1
           [0; 0] IndexError); reflexivity.
Defined.

(** ** Positions in the table *)

Lemma nth_error_set_nth_other {A : Type} (l : list A) i j v :
  i <> j -> nth_error (set_nth l i v) j = nth_error l j.
Proof.
  revert i j; induction l as [|h t IH]; intros [|i] [|j] H; simpl; auto; try lia.
Qed.

Lemma Forall_set_nth {A : Type} (P : A -> Prop) (l : list A) i v :
  Forall P l -> P v -> Forall P (set_nth l i v).
Proof.
  intros Hl Hv. revert i. induction Hl as [|h t Hh Ht IH]; intros [|i]; simpl;
    constructor; auto.
Qed.

Lemma Q_pos_in_range T y x a j k l :
  Q_pos T y x a = Some (j, k, l) ->
  exists plane line,
    nth_error T j = Some plane /\ nth_error plane k = Some line /\
    (l < length line)%nat /\
    py_pos (length T) y = Some j /\ py_pos (length plane) x = Some k /\
    py_pos (length line) a = Some l.
Proof.
  unfold Q_pos.
  destruct (py_pos (length T) y) as [j0|] eqn:Ey; [|discriminate].
  destruct (nth_error T j0) as [plane|] eqn:Ej; [|discriminate].
  destruct (py_pos (length plane) x) as [k0|] eqn:Ex; [|discriminate].
  destruct (nth_error plane k0) as [line|] eqn:Ek; [|discriminate].
  destruct (py_pos (length line) a) as [l0|] eqn:Ea; [|discriminate].
  intros [= <- <- <-]. exists plane, line.
  repeat split; auto. eapply py_pos_lt; eauto.
Qed.

Lemma Q_get_pos T y x a :
  Q_get T y x a = match Q_pos T y x a with
                  | Some (j, k, l) => match cell_at T j k l with
                                      | Some ms => Ret ms
                                      | None => Raise IndexError
                                      end
                  | None => Raise IndexError
                  end.
Proof.
  unfold Q_get, Q_pos, cell_at. rewrite py_index_pos.
  destruct (py_pos (length T) y) as [j|]; [|reflexivity].
  destruct (nth_error T j) as [plane|] eqn:Ej; [|reflexivity]. simpl.
  rewrite py_index_pos.
  destruct (py_pos (length plane) x) as [k|]; [|reflexivity].
  destruct (nth_error plane k) as [line|] eqn:Ek; [|reflexivity]. simpl.
  rewrite py_index_pos.
  destruct (py_pos (length line) a) as [l|]; [|reflexivity].
  rewrite Ej, Ek. reflexivity.
Qed.

Lemma Q_set_pos T y x a ms :
  Q_set T y x a ms = match Q_pos T y x a with
                     | Some (j, k, l) => Ret (Q_put T j k l ms)
                     | None => Raise IndexError
                     end.
Proof.
  unfold Q_set, Q_pos, Q_put. rewrite py_index_pos.
  destruct (py_pos (length T) y) as [j|] eqn:Ey; [|reflexivity].
  destruct (nth_error T j) as [plane|] eqn:Ej; [|reflexivity]. simpl.
  rewrite py_index_pos.
  destruct (py_pos (length plane) x) as [k|] eqn:Ex; [|reflexivity].
  destruct (nth_error plane k) as [line|] eqn:Ek; [|reflexivity]. simpl.
  rewrite py_store_pos.
  destruct (py_pos (length line) a) as [l|]; [|reflexivity]. simpl.
  rewrite py_store_pos, Ex. simpl. rewrite py_store_pos, Ey, Ej, Ek. reflexivity.
Qed.

Lemma cell_at_Q_put_same T j k l ms ms0 :
  cell_at T j k l = Some ms0 -> cell_at (Q_put T j k l ms) j k l = Some ms.
Proof.
  unfold cell_at, Q_put.
  destruct (nth_error T j) as [plane|] eqn:Ej; [|discriminate].
  destruct (nth_error plane k) as [line|] eqn:Ek; [|discriminate].
  intros Hl.
  rewrite nth_error_set_nth_same by (apply nth_error_Some; congruence).
  rewrite nth_error_set_nth_same by (apply nth_error_Some; congruence).
  apply nth_error_set_nth_same. apply nth_error_Some. congruence.
Qed.

Lemma cell_at_Q_put_other T j k l ms j' k' l' :
  (j, k, l) <> (j', k', l') ->
  cell_at (Q_put T j k l ms) j' k' l' = cell_at T j' k' l'.
Proof.
  intros Hne. unfold cell_at, Q_put.
  destruct (nth_error T j) as [plane|] eqn:Ej; [|reflexivity].
  destruct (nth_error plane k) as [line|] eqn:Ek; [|reflexivity].
  destruct (Nat.eq_dec j j') as [<-|Hj];
    [|rewrite nth_error_set_nth_other by exact Hj; reflexivity].
  rewrite nth_error_set_nth_same by (apply nth_error_Some; congruence). rewrite Ej.
  destruct (Nat.eq_dec k k') as [<-|Hk];
    [|rewrite nth_error_set_nth_other by exact Hk; reflexivity].
  rewrite nth_error_set_nth_same by (apply nth_error_Some; congruence). rewrite Ek.
  apply nth_error_set_nth_other. congruence.
Qed.

Lemma Q_pos_Q_put T j k l ms y x a :
  Q_pos (Q_put T j k l ms) y x a = Q_pos T y x a.
Proof.
  unfold Q_put.
  destruct (nth_error T j) as [plane|] eqn:Ej; [|reflexivity].
  destruct (nth_error plane k) as [line|] eqn:Ek; [|reflexivity].
  unfold Q_pos. rewrite length_set_nth.
  destruct (py_pos (length T) y) as [j0|]; [|reflexivity].
  destruct (Nat.eq_dec j j0) as [<-|Hj];
    [|rewrite nth_error_set_nth_other by exact Hj; reflexivity].
  rewrite nth_error_set_nth_same by (apply nth_error_Some; congruence).
  rewrite Ej, length_set_nth.
  destruct (py_pos (length plane) x) as [k0|]; [|reflexivity].
  destruct (Nat.eq_dec k k0) as [<-|Hk];
    [|rewrite nth_error_set_nth_other by exact Hk; reflexivity].
  rewrite nth_error_set_nth_same by (apply nth_error_Some; congruence).
  rewrite Ek, length_set_nth. reflexivity.
Qed.

Lemma shaped_cell_at NB h w n T j k l ms :
  shaped NB h w n T -> cell_at T j k l = Some ms -> cell_shaped NB ms.
Proof.
  intros [_ HT]. unfold cell_at.
  destruct (nth_error T j) as [plane|] eqn:Ej; [|discriminate].
  destruct (nth_error plane k) as [line|] eqn:Ek; [|discriminate].
  intros Hl. rewrite Forall_forall in HT.
  destruct (HT plane (nth_error_In _ _ Ej)) as [_ Hp]. rewrite Forall_forall in Hp.
  destruct (Hp line (nth_error_In _ _ Ek)) as [_ Hc]. rewrite Forall_forall in Hc.
  apply Hc. eapply nth_error_In; eauto.
Qed.

Lemma shaped_Q_put NB h w n T j k l ms :
  shaped NB h w n T -> cell_shaped NB ms -> shaped NB h w n (Q_put T j k l ms).
Proof.
  intros [Hh HT] Hms. unfold Q_put.
  destruct (nth_error T j) as [plane|] eqn:Ej; [|split; assumption].
  destruct (nth_error plane k) as [line|] eqn:Ek; [|split; assumption].
  pose proof HT as HT'. rewrite Forall_forall in HT'.
  destruct (HT' plane (nth_error_In _ _ Ej)) as [Hw Hp].
  pose proof Hp as Hp'. rewrite Forall_forall in Hp'.
  destruct (Hp' line (nth_error_In _ _ Ek)) as [Hn Hc].
  split; [rewrite length_set_nth; exact Hh|].
  apply Forall_set_nth; [exact HT|].
  split; [rewrite length_set_nth; exact Hw|].
  apply Forall_set_nth; [exact Hp|].
  split; [rewrite length_set_nth; exact Hn|].
  apply Forall_set_nth; assumption.
Qed.

(** ** What the stores do to the table *)

Lemma rewrites_cell_store_V x a i v T o T' :
  store_V x a i v T = (o, T') -> rewrites_cell (st_y x) (st_x x) a T T'.
Proof.
  unfold store_V, commit. rewrite Q_get_pos.
  destruct (Q_pos T (st_y x) (st_x x) a) as [[[j k] l]|] eqn:Ep;
    [|simpl; intros [= _ <-]; left; reflexivity].
  destruct (cell_at T j k l) as [ms|] eqn:Ec;
    [|simpl; intros [= _ <-]; left; reflexivity].
  simpl. rewrite py_store_pos.
  destruct (py_pos (length (V ms)) i) as [p|];
    [|simpl; intros [= _ <-]; left; reflexivity].
  simpl. rewrite Q_set_pos, Ep. intros [= _ <-]. right.
  exists j, k, l, ms, (mkMarkovState (set_nth (V ms) p v) (yC ms)).
  repeat split; auto. simpl. apply length_set_nth.
Qed.

Lemma rewrites_cell_store_yC x a i v T o T' :
  store_yC x a i v T = (o, T') -> rewrites_cell (st_y x) (st_x x) a T T'.
Proof.
  unfold store_yC, commit. rewrite Q_get_pos.
  destruct (Q_pos T (st_y x) (st_x x) a) as [[[j k] l]|] eqn:Ep;
    [|simpl; intros [= _ <-]; left; reflexivity].
  destruct (cell_at T j k l) as [ms|] eqn:Ec;
    [|simpl; intros [= _ <-]; left; reflexivity].
  simpl. rewrite py_store_pos.
  destruct (py_pos (length (yC ms)) i) as [p|];
    [|simpl; intros [= _ <-]; left; reflexivity].
  simpl. rewrite Q_set_pos, Ep. intros [= _ <-]. right.
  exists j, k, l, ms, (mkMarkovState (V ms) (set_nth (yC ms) p v)).
  repeat split; auto. simpl. apply length_set_nth.
Qed.

Lemma keeps_ret {A : Type} (P : Table -> Prop) (a : A) : keeps P (ret a).
Proof. intros T o T' HP [= _ <-]. exact HP. Qed.

Lemma keeps_raise {A : Type} (P : Table -> Prop) e : keeps P (@raise A e).
Proof. intros T o T' HP [= _ <-]. exact HP. Qed.

Lemma keeps_query {A : Type} (P : Table -> Prop) (f : Table -> outcome A) :
  keeps P (query f).
Proof. intros T o T' HP [= _ <-]. exact HP. Qed.

Lemma keeps_bind {A B : Type} (P : Table -> Prop) (m : M A) (k : A -> M B) :
  keeps P m -> (forall a, keeps P (k a)) -> keeps P (bind m k).
Proof.
  intros Hm Hk T o T' HP. unfold bind.
  destruct (m T) as [[a|e] T1] eqn:E.
  - apply (Hk a). eapply Hm; eauto.
  - intros [= _ <-]. eapply Hm; eauto.
Qed.

Lemma keeps_for_each {B : Type} (P : Table -> Prop) (l : list B) (body : B -> M unit) :
  (forall b, keeps P (body b)) -> keeps P (for_each l body).
Proof.
  intros H. induction l as [|b l IH]; simpl; [apply keeps_ret|].
  apply keeps_bind; [apply H | intros _; exact IH].
Qed.

(** Whatever the stores keep, [update] keeps. *)
Lemma keeps_update (P : Table -> Prop) NB atoms beta gamma ACTIONS x a x_ r :
  (forall i v, keeps P (store_V x a i v)) ->
  (forall i v, keeps P (store_yC x a i v)) ->
  keeps P (update NB atoms beta gamma ACTIONS x a x_ r).
Proof.
  intros HV HY. unfold update.
  apply keeps_bind; [apply keeps_query | intros V_x].
  apply keeps_bind.
  - unfold update_loop. apply keeps_for_each. intros v.
    apply keeps_for_each. intros ia. unfold update_step. cbv zeta.
    apply keeps_bind; [apply keeps_query | intros V0].
    apply keeps_bind; [apply keeps_query | intros yC0].
    apply keeps_bind; [apply keeps_query | intros cur].
    apply keeps_bind; [|intros _; apply HY].
    destruct (Qle_bool _ _); (apply keeps_bind; [apply keeps_query | intros old; apply HV]).
  - intros _. unfold update_assert.
    apply keeps_bind; [apply keeps_query | intros first].
    apply keeps_bind; [apply keeps_query | intros last].
    destruct (Qle_bool first last); [apply keeps_ret | apply keeps_raise].
Qed.

Lemma shaped_rewrites_cell NB h w n y x a T T' :
  shaped NB h w n T -> rewrites_cell y x a T T' -> shaped NB h w n T'.
Proof.
  intros HT [-> | (j & k & l & ms & ms' & _ & Hc & HV & HY & ->)]; [exact HT|].
  apply shaped_Q_put; [exact HT|].
  destruct (shaped_cell_at _ _ _ _ _ _ _ _ _ HT Hc) as [H1 H2].
  split; congruence.
Qed.

(** [update] (lines 31-50) keeps the shape of the table on every outcome,
    exceptions included: the same rows, columns and actions, and in every
    cell the same number of quantile and CVaR entries. *)
Theorem update_keeps_shape (NB h w n : nat) (atoms : list Q) (beta gamma : Q)
  (ACTIONS : list Z) (x : State) (a : Z) (x_ : State) (r : Q)
  (T : Table) (o : outcome unit) (T' : Table) :
  shaped NB h w n T ->
  update NB atoms beta gamma ACTIONS x a x_ r T = (o, T') ->
  shaped NB h w n T'.
Proof.
  apply (keeps_update (shaped NB h w n)).
  - intros i v T0 o0 T1 H0 Hs.
    eapply shaped_rewrites_cell; [exact H0 | eapply rewrites_cell_store_V; eauto].
  - intros i v T0 o0 T1 H0 Hs.
    eapply shaped_rewrites_cell; [exact H0 | eapply rewrites_cell_store_yC; eauto].
Qed.

Lemma update_keeps_shape_witness :
  shaped 2 1 2 1
    (snd (update 2 atoms2 (1#10) 1 [0%Z] origin 0 (mkState 0 1) 1 table_1x2)).
Proof.
  apply (update_keeps_shape 2 1 2 1 atoms2 (1#10) 1 [0%Z] origin 0 (mkState 0 1) 1
           table_1x2
           (fst (update 2 atoms2 (1#10) 1 [0%Z] origin 0 (mkState 0 1) 1 table_1x2))).
  - split; [reflexivity|]. repeat constructor.
  - apply surjective_pairing.
Defined.

(** [update] writes to the cell of [(x, a)] only: the cell at every other
    position of the table is the same object with the same entries after
    the call, whatever the outcome. *)
Theorem update_touches_one_cell (NB : nat) (atoms : list Q) (beta gamma : Q)
  (ACTIONS : list Z) (x : State) (a : Z) (x_ : State) (r : Q)
  (T : Table) (o : outcome unit) (T' : Table) (j k l : nat) :
  update NB atoms beta gamma ACTIONS x a x_ r T = (o, T') ->
  Q_pos T (st_y x) (st_x x) a <> Some (j, k, l) ->
  cell_at T' j k l = cell_at T j k l.
Proof.
  intros Hu Hpos.
  set (P := fun T1 => Q_pos T1 (st_y x) (st_x x) a = Q_pos T (st_y x) (st_x x) a /\
                      cell_at T1 j k l = cell_at T j k l).
  assert (Hstep : forall T0 T1, P T0 -> rewrites_cell (st_y x) (st_x x) a T0 T1 -> P T1).
  { intros T0 T1 [Hp Hc] [-> | (j0 & k0 & l0 & ms & ms' & Hq & _ & _ & _ & ->)];
      [split; assumption|].
    split; [rewrite Q_pos_Q_put; exact Hp|].
    rewrite cell_at_Q_put_other; [exact Hc|].
    intros E. apply Hpos. rewrite <- Hp, Hq. f_equal. exact E. }
  assert (HP : P T') .
  { apply (keeps_update P NB atoms beta gamma ACTIONS x a x_ r) with (T := T) (o := o).
    - intros i v T0 o0 T1 H0 Hs. eapply Hstep; [exact H0 | eapply rewrites_cell_store_V; eauto].
    - intros i v T0 o0 T1 H0 Hs. eapply Hstep; [exact H0 | eapply rewrites_cell_store_yC; eauto].
    - split; reflexivity.
    - exact Hu. }
  exact (proj2 HP).
Qed.

Lemma update_touches_one_cell_witness :
  cell_at (snd (update 2 atoms2 (1#10) 1 [0%Z] origin 0 (mkState 0 1) 1 table_1x2)) 0 1 0
  = cell_at table_1x2 0 1 0.
Proof.
  apply (update_touches_one_cell 2 atoms2 (1#10) 1 [0%Z] origin 0 (mkState 0 1) 1
           table_1x2
           (fst (update 2 atoms2 (1#10) 1 [0%Z] origin 0 (mkState 0 1) 1 table_1x2))).
  - apply surjective_pairing.
  - discriminate.
Defined.

(** ** The fresh table *)

Lemma py_pos_indexesb n i :
  py_pos n i = if indexesb n i
               then Some (Z.to_nat (if (i <? 0)%Z then Z.of_nat n + i else i)%Z)
               else None.
Proof.
  unfold py_pos, indexesb.
  destruct (i <? 0)%Z eqn:E0.
  - apply Z.ltb_lt in E0.
    destruct (Z.of_nat n + i <? 0)%Z eqn:E1.
    + apply Z.ltb_lt in E1.
      replace (- Z.of_nat n <=? i)%Z with false by (symmetry; apply Z.leb_gt; lia).
      reflexivity.
    + apply Z.ltb_ge in E1.
      replace (- Z.of_nat n <=? i)%Z with true by (symmetry; apply Z.leb_le; lia).
      replace (Z.of_nat n + i <? Z.of_nat n)%Z with true by (symmetry; apply Z.ltb_lt; lia).
      replace (i <? Z.of_nat n)%Z with true by (symmetry; apply Z.ltb_lt; lia).
      reflexivity.
  - apply Z.ltb_ge in E0. rewrite (proj2 (Z.ltb_ge i 0) E0).
    replace (- Z.of_nat n <=? i)%Z with true by (symmetry; apply Z.leb_le; lia).
    reflexivity.
Qed.

Lemma py_index_repeat {A : Type} (v : A) (n : nat) (i : Z) :
  py_index (repeat v n) i = if indexesb n i then Ret v else Raise IndexError.
Proof.
  rewrite py_index_pos, repeat_length, py_pos_indexesb.
  destruct (indexesb n i) eqn:E; [|reflexivity].
  unfold indexesb in E. apply andb_true_iff in E. destruct E as [E1 E2].
  apply Z.leb_le in E1. apply Z.ltb_lt in E2.
  rewrite nth_error_repeat; [reflexivity|].
  destruct (i <? 0)%Z eqn:E0; [apply Z.ltb_lt in E0 | apply Z.ltb_ge in E0]; lia.
Qed.

Lemma shaped_init NB ACTIONS h w :
  shaped NB h w (length ACTIONS) (ActionValueFunction_init NB ACTIONS h w).
Proof.
  unfold ActionValueFunction_init, shaped. rewrite repeat_length.
  split; [reflexivity|].
  apply Forall_forall. intros plane Hp. apply repeat_spec in Hp. subst plane.
  rewrite repeat_length. split; [reflexivity|].
  apply Forall_forall. intros line Hl. apply repeat_spec in Hl. subst line.
  rewrite repeat_length. split; [reflexivity|].
  apply Forall_forall. intros ms Hms. apply repeat_spec in Hms. subst ms.
  unfold cell_shaped, MarkovState_init. simpl. rewrite repeat_length. auto.
Qed.

(** [ActionValueFunction.__init__] (lines 24-29) with [MarkovState.__init__]
    (lines 80-82): the fresh table has [height] rows, [width] columns and one
    cell per action, each with [NB_ATOMS] entries; a lookup [self.Q[y, x, a]]
    returns the all-zero state when each index is valid for its axis,
    negative indices counting from the end, and raises [IndexError]
    otherwise. *)
Theorem fresh_table_lookup (NB : nat) (ACTIONS : list Z) (h w : nat) (y x a : Z) :
  shaped NB h w (length ACTIONS) (ActionValueFunction_init NB ACTIONS h w) /\
  Q_get (ActionValueFunction_init NB ACTIONS h w) y x a
  = (if indexesb h y && indexesb w x && indexesb (length ACTIONS) a
     then Ret (mkMarkovState (repeat 0 NB) (repeat 0 NB))
     else Raise IndexError).
Proof.
  split; [apply shaped_init|].
  unfold Q_get, ActionValueFunction_init. rewrite py_index_repeat.
  destruct (indexesb h y); [|reflexivity]. simpl.
  rewrite py_index_repeat.
  destruct (indexesb w x); [|reflexivity]. simpl.
  rewrite py_index_repeat.
  destruct (indexesb (length ACTIONS) a); reflexivity.
Qed.

(** ** [update] on a table of the right shape *)

Lemma py_index_indexes {A : Type} (l : list A) (i : Z) :
  indexes (length l) i -> exists v, py_index l i = Ret v /\ In v l.
Proof.
  intros [H1 H2]. rewrite py_index_pos, py_pos_indexesb. unfold indexesb.
  replace (- Z.of_nat (length l) <=? i)%Z with true by (symmetry; apply Z.leb_le; lia).
  replace (i <? Z.of_nat (length l))%Z with true by (symmetry; apply Z.ltb_lt; lia).
  simpl.
  destruct (nth_error l _) as [v|] eqn:E.
  - exists v. split; [reflexivity | eapply nth_error_In; eauto].
  - apply nth_error_None in E.
    destruct (i <? 0)%Z eqn:E0; [apply Z.ltb_lt in E0 | apply Z.ltb_ge in E0]; lia.
Qed.

Lemma shaped_Q_get NB h w n T y x a :
  shaped NB h w n T ->
  indexes h y -> indexes w x -> indexes n a ->
  exists ms, Q_get T y x a = Ret ms /\ cell_shaped NB ms.
Proof.
  intros [Hh HT] Hy Hx Ha. unfold Q_get. rewrite Forall_forall in HT.
  destruct (py_index_indexes T y ltac:(rewrite Hh; exact Hy)) as (plane & -> & Hin).
  destruct (HT plane Hin) as [Hw Hp]. rewrite Forall_forall in Hp. simpl.
  destruct (py_index_indexes plane x ltac:(rewrite Hw; exact Hx)) as (line & -> & Hin2).
  destruct (Hp line Hin2) as [Hn Hc]. rewrite Forall_forall in Hc. simpl.
  destruct (py_index_indexes line a ltac:(rewrite Hn; exact Ha)) as (ms & -> & Hin3).
  exists ms. split; [reflexivity | apply Hc; exact Hin3].
Qed.

Lemma sup_q_returns (NB : nat) (atoms : list Q) (ACTIONS : list Z) (T : Table) (x : State) :
  ACTIONS <> [] ->
  Forall (fun a => exists ms, Q_get T (st_y x) (st_x x) a = Ret ms /\
                              (NB <= length (yC ms))%nat) ACTIONS ->
  exists V_x, sup_q NB atoms ACTIONS T x = Ret V_x.
Proof.
  intros Hne Hall. unfold sup_q.
  assert (H : exists bs, omap
            (fun i => let? col := omap (fun a => let? ms := Q_get T (st_y x) (st_x x) a in
                                                 py_index (yC ms) (Z.of_nat i)) ACTIONS in
                      np_max col) (seq 0 NB) = Ret bs).
  { apply omap_Ret_iff, Forall_forall. intros i Hi. apply in_seq in Hi.
    apply sup_q_column_iff. split; [exact Hne|].
    eapply Forall_impl; [|exact Hall].
    intros a (ms & Hms & Hlen). exists ms. split; [exact Hms | lia]. }
  destruct H as (bs & ->). simpl. eauto.
Qed.

(** Once [sup_q(x_)] has returned and the cell of [(x, a)] has its
    [NB_ATOMS >= 1] entries, nothing but the assertion can stop [update]. *)
Lemma update_returns_or_asserts (NB : nat) (atoms : list Q) (beta gamma : Q)
  (ACTIONS : list Z) (x : State) (a : Z) (x_ : State) (r : Q) (T : Table)
  (ms : MarkovState) (V_x : list Q) :
  (1 <= NB)%nat ->
  length atoms = S NB ->
  sup_q NB atoms ACTIONS T x_ = Ret V_x ->
  Q_get T (st_y x) (st_x x) a = Ret ms ->
  cell_shaped NB ms ->
  exists T',
    update NB atoms beta gamma ACTIONS x a x_ r T = (Ret tt, T') \/
    update NB atoms beta gamma ACTIONS x a x_ r T = (Raise AssertionError, T').
Proof.
  intros H1 Hat Hs Hg [HV HY].
  assert (Htl : length (tl atoms) = NB) by (destruct atoms; simpl in *; lia).
  destruct (update_loop_run beta gamma x a r atoms V_x T ms Hg ltac:(lia) ltac:(lia))
    as (T' & ms' & Hloop & Hg' & HV' & _ & _).
  exists T'.
  assert (Hu : update NB atoms beta gamma ACTIONS x a x_ r T = update_assert x a T').
  { unfold update.
    erewrite bind_Ret by (unfold query; rewrite Hs; reflexivity).
    erewrite bind_Ret by exact Hloop. reflexivity. }
  rewrite Hu. unfold update_assert.
  assert (Hne' : V ms' <> []) by (destruct (V ms'); [simpl in HV'; lia | discriminate]).
  assert (R0 : read_V x a 0 T' = (Ret (nth 0 (V ms') 0), T')).
  { apply (read_V_Ret x a T' ms' 0 _ Hg'). apply nth_error_nth_Q. lia. }
  assert (R1 : read_V x a (-1) T' = (Ret (List.last (V ms') 0), T')).
  { unfold read_V, query. rewrite Hg'. simpl. rewrite (py_index_last _ 0 Hne'). reflexivity. }
  rewrite (bind_Ret _ _ _ _ _ R0), (bind_Ret _ _ _ _ _ R1).
  destruct (Qle_bool _ _); [left | right]; reflexivity.
Qed.

Lemma shaped_sup_q_returns (NB h w : nat) (atoms : list Q) (ACTIONS : list Z)
  (T : Table) (x : State) :
  shaped NB h w (length ACTIONS) T ->
  ACTIONS <> [] ->
  Forall (indexes (length ACTIONS)) ACTIONS ->
  indexes h (st_y x) -> indexes w (st_x x) ->
  exists V_x, sup_q NB atoms ACTIONS T x = Ret V_x.
Proof.
  intros HT Hne Hacts Hy Hx. apply sup_q_returns; [exact Hne|].
  eapply Forall_impl; [|exact Hacts]. intros a' Ha'.
  destruct (shaped_Q_get _ _ _ _ _ _ _ _ HT Hy Hx Ha') as (ms & Hms & [_ HY]).
  exists ms. split; [exact Hms | lia].
Qed.

(** On a table of the right shape, with [NB_ATOMS >= 1] atoms after the
    first, both states in the grid, and every action a valid index,
    [update] raises neither [IndexError] nor [ValueError]: it returns, or
    its assertion fails. *)
Theorem update_only_asserts (NB h w : nat) (atoms : list Q) (beta gamma : Q)
  (ACTIONS : list Z) (x : State) (a : Z) (x_ : State) (r : Q) (T : Table) :
  shaped NB h w (length ACTIONS) T ->
  (1 <= NB)%nat ->
  length atoms = S NB ->
  ACTIONS <> [] ->
  Forall (indexes (length ACTIONS)) ACTIONS ->
  indexes h (st_y x) -> indexes w (st_x x) -> indexes (length ACTIONS) a ->
  indexes h (st_y x_) -> indexes w (st_x x_) ->
  exists T',
    update NB atoms beta gamma ACTIONS x a x_ r T = (Ret tt, T') \/
    update NB atoms beta gamma ACTIONS x a x_ r T = (Raise AssertionError, T').
Proof.
  intros HT H1 Hat Hne Hacts Hy Hx Ha Hy' Hx'.
  destruct (shaped_sup_q_returns NB h w atoms ACTIONS T x_ HT Hne Hacts Hy' Hx')
    as (V_x & Hs).
  destruct (shaped_Q_get _ _ _ _ _ _ _ _ HT Hy Hx Ha) as (ms & Hg & Hms).
  eapply update_returns_or_asserts; eauto.
Qed.

Lemma update_only_asserts_witness :
  exists T',
    update 2 atoms2 (1#10) 1 [0%Z] origin 0 (mkState 0 1) 1 table_1x2 = (Ret tt, T') \/
    update 2 atoms2 (1#10) 1 [0%Z] origin 0 (mkState 0 1) 1 table_1x2
    = (Raise AssertionError, T').
Proof.
  apply (update_only_asserts 2 1 2 atoms2 (1#10) 1 [0%Z] origin 0 (mkState 0 1) 1 table_1x2).
  - split; [reflexivity|]. repeat constructor.
  - lia.
  - reflexivity.
  - discriminate.
  - repeat constructor; simpl; lia.
  - split; simpl; lia.
  - split; simpl; lia.
  - split; simpl; lia.
  - split; simpl; lia.
  - split; simpl; lia.
Defined.

(** ** How far one [update] moves a quantile *)

Lemma Qinv_ge_1 (atom : Q) : 0 < atom -> atom <= 1 -> 1 <= 1 / atom.
Proof.
  intros Hpos Hle.
  assert (Hc : 0 < 1 / atom).
  { unfold Qdiv. rewrite Qmult_1_l. apply Qinv_lt_0_compat. exact Hpos. }
  assert (He : (1 / atom) * atom == 1) by (field; lra).
  nra.
Qed.

Lemma atom_step_fst_bounds beta gamma atom r v (p : Q * Q) :
  0 <= beta -> 0 < atom -> atom <= 1 ->
  fst p - beta * (1 / atom - 1) <= fst (atom_step beta gamma atom r v p) /\
  fst (atom_step beta gamma atom r v p) <= fst p + beta.
Proof.
  intros Hb Hpos Hle. pose proof (Qinv_ge_1 atom Hpos Hle) as Hc.
  unfold atom_step. simpl fst.
  destruct (Qle_bool (r + gamma * v) (fst p)); split; nra.
Qed.

Lemma atom_run_fst_bounds beta gamma atom r targets :
  0 <= beta -> 0 < atom -> atom <= 1 ->
  forall p,
    fst p - inject_Z (Z.of_nat (length targets)) * (beta * (1 / atom - 1))
    <= fst (atom_run beta gamma atom r targets p) /\
    fst (atom_run beta gamma atom r targets p)
    <= fst p + inject_Z (Z.of_nat (length targets)) * beta.
Proof.
  intros Hb Hpos Hle. unfold atom_run.
  induction targets as [|v ts IH]; intros p.
  - simpl fold_left. simpl length. change (inject_Z (Z.of_nat 0)) with 0. split; lra.
  - simpl fold_left. simpl length.
    destruct (IH (atom_step beta gamma atom r v p)) as [L U].
    destruct (atom_step_fst_bounds beta gamma atom r v p Hb Hpos Hle) as [L1 U1].
    assert (E : inject_Z (Z.of_nat (S (length ts))) == inject_Z (Z.of_nat (length ts)) + 1).
    { rewrite Nat2Z.inj_succ. unfold Z.succ. rewrite inject_Z_plus. reflexivity. }
    rewrite E. split; lra.
Qed.

(** One call of [update], on a strictly increasing grid inside [0, 1] and
    with [beta >= 0], moves each quantile [V[i]] up by at most
    [len(V_x) * beta] and down by at most
    [len(V_x) * beta * (1/atoms[i+1] - 1)], [V_x] being [sup_q(x_)]: the
    quantile of an atom equal to 1 never goes down. *)
Theorem update_moves_V_boundedly (NB : nat) (atoms : list Q) (beta gamma : Q)
  (ACTIONS : list Z) (x : State) (a : Z) (x_ : State) (r : Q)
  (T : Table) (ms : MarkovState) (V_x : list Q) :
  length atoms = S NB ->
  increasing atoms ->
  0 <= nth 0 atoms 0 ->
  nth NB atoms 0 <= 1 ->
  0 <= beta ->
  Q_get T (st_y x) (st_x x) a = Ret ms ->
  length (V ms) = NB ->
  length (yC ms) = NB ->
  sup_q NB atoms ACTIONS T x_ = Ret V_x ->
  exists o T' ms',
    update NB atoms beta gamma ACTIONS x a x_ r T = (o, T') /\
    Q_get T' (st_y x) (st_x x) a = Ret ms' /\
    forall i, (i < NB)%nat ->
      nth i (V ms) 0
      - inject_Z (Z.of_nat (length V_x)) * (beta * (1 / nth (S i) atoms 0 - 1))
      <= nth i (V ms') 0 /\
      nth i (V ms') 0 <= nth i (V ms) 0 + inject_Z (Z.of_nat (length V_x)) * beta.
Proof.
  intros Hat Hinc H0 H1 Hb Hg HV HY Hs.
  assert (Htl : length (tl atoms) = NB) by (destruct atoms; simpl in *; lia).
  destruct (update_loop_run beta gamma x a r atoms V_x T ms Hg ltac:(lia) ltac:(lia))
    as (T' & ms' & Hloop & Hg' & _ & _ & Hn).
  assert (Hu : update NB atoms beta gamma ACTIONS x a x_ r T = update_assert x a T').
  { unfold update.
    erewrite bind_Ret by (unfold query; rewrite Hs; reflexivity).
    erewrite bind_Ret by exact Hloop. reflexivity. }
  assert (Ho : exists o, update_assert x a T' = (o, T')).
  { destruct (update_assert_cases x a T')
      as [(f & l & _ & _ & [[_ E] | [_ E]]) | (e & _ & E)]; eauto. }
  destruct Ho as (o & Ho). exists o, T', ms'.
  split; [rewrite Hu; exact Ho|]. split; [exact Hg'|].
  intros i Hi.
  pose proof (Hn i ltac:(lia)) as E.
  assert (Hpos : 0 < nth (S i) atoms 0).
  { pose proof (increasing_nth_le atoms Hinc 0 i ltac:(lia) ltac:(lia)).
    pose proof (increasing_nth_lt atoms Hinc i ltac:(lia)). lra. }
  assert (Hle : nth (S i) atoms 0 <= 1).
  { pose proof (increasing_nth_le atoms Hinc (S i) NB ltac:(lia) ltac:(lia)). lra. }
  destruct (atom_run_fst_bounds beta gamma (nth (S i) atoms 0) r V_x Hb Hpos Hle
              (nth i (V ms) 0, nth i (yC ms) 0)) as [L U].
  rewrite <- E in L, U. simpl fst in L, U. split; assumption.
Qed.

Lemma update_moves_V_boundedly_witness :
  exists o T' ms',
    update 2 atoms2 (1#10) 1 [0%Z] origin 0 origin 1 table_1x1 = (o, T') /\
    Q_get T' (st_y origin) (st_x origin) 0 = Ret ms' /\
    forall i, (i < 2)%nat ->
      nth i (V (MarkovState_init 2)) 0
      - inject_Z (Z.of_nat (length [0; 0])) * ((1#10) * (1 / nth (S i) atoms2 0 - 1))
      <= nth i (V ms') 0 /\
      nth i (V ms') 0
      <= nth i (V (MarkovState_init 2)) 0 + inject_Z (Z.of_nat (length [0; 0])) * (1#10).
Proof.
  apply (update_moves_V_boundedly 2 atoms2 (1#10) 1 [0%Z] origin 0 origin 1 table_1x1
           (MarkovState_init 2) [0; 0]).
  - reflexivity.
  - simpl. repeat split; reflexivity.
  - discriminate.
  - discriminate.
  - discriminate.
  - reflexivity.
  - reflexivity.
  - reflexivity.
  - reflexivity.
Defined.

(** ** The value grid [q_to_v_exp] *)

Lemma omap_Forall2 {A B : Type} (R : A -> B -> Prop) (f : A -> outcome B) l :
  Forall (fun a => exists b, f a = Ret b /\ R a b) l ->
  exists bs, omap f l = Ret bs /\ Forall2 R l bs.
Proof.
  induction 1 as [|a l (b & Hb & Hr) _ (bs & Hbs & HR)]; simpl.
  - exists []. split; [reflexivity | constructor].
  - exists (b :: bs). rewrite Hb, Hbs. split; [reflexivity | constructor; assumption].
Qed.

Lemma expected_value_returns atoms ms NB :
  length atoms = S NB -> length (yC ms) = NB ->
  exists e, expected_value atoms ms = Ret e.
Proof.
  intros Hat HY. unfold expected_value, dist_from_yc, np_dot.
  rewrite length_yc_to_var, length_atom_p, Hat, HY. simpl. rewrite Nat.eqb_refl. eauto.
Qed.

Lemma omap_map {A B C : Type} (f : B -> outcome C) (g : A -> B) l :
  omap f (map g l) = omap (fun a => f (g a)) l.
Proof.
  induction l as [|a l IH]; simpl; [reflexivity|]. rewrite IH. reflexivity.
Qed.

(** [q_to_v_exp] (lines 164-165) on a table of the right shape: with no
    action it raises [ValueError], however many rows and columns there are;
    with at least one action it returns a grid with the table's rows and
    columns, and the entry of each state is the largest [expected_value()]
    among that state's actions. *)
Theorem q_to_v_exp_is_max (NB h w : nat) (atoms : list Q) (ACTIONS : list Z) (T : Table) :
  shaped NB h w (length ACTIONS) T ->
  length atoms = S NB ->
  (ACTIONS = [] -> q_to_v_exp atoms ACTIONS T = Raise ValueError) /\
  (ACTIONS <> [] ->
   exists G,
     q_to_v_exp atoms ACTIONS T = Ret G /\
     length G = h /\
     Forall (fun row => length row = w) G /\
     Forall2 (Forall2 (fun line m =>
                         Forall (fun ms => exists e, expected_value atoms ms = Ret e /\ e <= m)
                                line /\
                         Exists (fun ms => expected_value atoms ms = Ret m) line))
             T G).
Proof.
  intros [Hh HT] Hat.
  set (best := fun (line : list MarkovState) (m : Q) =>
                 Forall (fun ms => exists e, expected_value atoms ms = Ret e /\ e <= m) line /\
                 Exists (fun ms => expected_value atoms ms = Ret m) line).
  set (ev := fun ms => match expected_value atoms ms with Ret e => e | Raise _ => 0 end).
  assert (Hev : forall line, Forall (cell_shaped NB) line ->
            forall ms, In ms line -> expected_value atoms ms = Ret (ev ms)).
  { intros line Hc ms Hin. rewrite Forall_forall in Hc. unfold ev.
    destruct (expected_value_returns atoms ms NB Hat (proj2 (Hc ms Hin))) as (e & ->).
    reflexivity. }
  assert (HE : omap (omap (omap (expected_value atoms))) T = Ret (map (map (map ev)) T)).
  { apply omap_Ret_map. intros plane Hp. rewrite Forall_forall in HT.
    destruct (HT plane Hp) as [_ Hlines]. rewrite Forall_forall in Hlines.
    apply omap_Ret_map. intros line Hl.
    apply omap_Ret_map. apply Hev. exact (proj2 (Hlines line Hl)). }
  unfold q_to_v_exp. rewrite HE. simpl obind. split.
  - intros ->. reflexivity.
  - intros Hne. destruct ACTIONS as [|a0 rest] eqn:EA; [congruence|].
    assert (Hn : (1 <= length (a0 :: rest))%nat) by (simpl; lia).
    set (n := length (a0 :: rest)) in *.
    assert (Hline : forall line, length line = n /\ Forall (cell_shaped NB) line ->
              exists m, np_max (map ev line) = Ret m /\ best line m).
    { intros line [Hlen Hc].
      destruct (np_max_spec (map ev line)) as (m & Hm & Hub & Hin).
      { destruct line; [simpl in Hlen; lia | discriminate]. }
      exists m. split; [exact Hm|]. split.
      - apply Forall_forall. intros ms Hms. exists (ev ms).
        split; [apply (Hev line Hc); exact Hms|].
        rewrite Forall_forall in Hub. apply Hub. apply in_map. exact Hms.
      - apply in_map_iff in Hin. destruct Hin as (ms & <- & Hms).
        apply Exists_exists. exists ms. split; [exact Hms | apply (Hev line Hc); exact Hms]. }
    rewrite omap_map.
    destruct (omap_Forall2 (Forall2 best)
                (fun plane => omap np_max (map (map ev) plane)) T) as (G & HG & HF).
    { eapply Forall_impl; [|exact HT]. intros plane [_ Hp].
      rewrite omap_map. apply omap_Forall2.
      eapply Forall_impl; [|exact Hp]. exact Hline. }
    exists G. split; [exact HG|].
    split; [rewrite <- (Forall2_length HF); exact Hh|].
    split; [|exact HF].
    clear HG Hh HE. induction HF as [|plane row T0 G0 Hrow _ IH]; constructor.
    + rewrite <- (Forall2_length Hrow).
      inversion HT as [|? ? Hp0 _]; subst. exact (proj1 Hp0).
    + apply IH. inversion HT; subst. assumption.
Qed.

Lemma q_to_v_exp_is_max_witness :
  ([0%Z; 1%Z] = [] ->
   q_to_v_exp atoms2 [0%Z; 1%Z]
     [[[mkMarkovState [0; 0] [1; 5]; mkMarkovState [0; 0] [2; 3]];
       [mkMarkovState [0; 0] [0; 7]; mkMarkovState [0; 0] [4; 9]]]]
   = Raise ValueError) /\
  ([0%Z; 1%Z] <> [] ->
   exists G,
     q_to_v_exp atoms2 [0%Z; 1%Z]
       [[[mkMarkovState [0; 0] [1; 5]; mkMarkovState [0; 0] [2; 3]];
         [mkMarkovState [0; 0] [0; 7]; mkMarkovState [0; 0] [4; 9]]]]
     = Ret G /\
     length G = 1%nat /\
     Forall (fun row => length row = 2%nat) G /\
     Forall2 (Forall2 (fun line m =>
                         Forall (fun ms => exists e, expected_value atoms2 ms = Ret e /\ e <= m)
                                line /\
                         Exists (fun ms => expected_value atoms2 ms = Ret m) line))
             [[[mkMarkovState [0; 0] [1; 5]; mkMarkovState [0; 0] [2; 3]];
               [mkMarkovState [0; 0] [0; 7]; mkMarkovState [0; 0] [4; 9]]]] G).
Proof.
  apply (q_to_v_exp_is_max 2 1 2 atoms2 [0%Z; 1%Z]
           [[[mkMarkovState [0; 0] [1; 5]; mkMarkovState [0; 0] [2; 3]];
             [mkMarkovState [0; 0] [0; 7]; mkMarkovState [0; 0] [4; 9]]]]).
  - split; [reflexivity|]. repeat constructor.
  - reflexivity.
Defined.

(** The grid of that table: 5 for the first state, 9 for the second. *)
Example q_to_v_exp_two_states :
  exists G,
    q_to_v_exp atoms2 [0%Z; 1%Z]
      [[[mkMarkovState [0; 0] [1; 5]; mkMarkovState [0; 0] [2; 3]];
        [mkMarkovState [0; 0] [0; 7]; mkMarkovState [0; 0] [4; 9]]]]
    = Ret G /\
    Forall2 Qlist_eq G [[5; 9]].
Proof.
  eexists. split; [vm_compute; reflexivity|]. repeat constructor.
Qed.

(** Without actions the maximum has nothing to range over: also in a table
    of two rows and no column, and in one of no row. *)
Example q_to_v_exp_no_action :
  q_to_v_exp atoms2 [] (ActionValueFunction_init 2 [] 2 0) = Raise ValueError /\
  q_to_v_exp atoms2 [] (ActionValueFunction_init 2 [] 2 3) = Raise ValueError /\
  q_to_v_exp atoms2 [] (ActionValueFunction_init 2 [] 0 3) = Raise ValueError.
Proof. repeat split. Qed.

(** ** The table [q_learning] returns *)

Lemma keeps_shaped_update NB h w n atoms beta gamma ACTIONS x a x_ r :
  keeps (shaped NB h w n) (update NB atoms beta gamma ACTIONS x a x_ r).
Proof.
  apply keeps_update; intros i v T0 o0 T1 H0 Hs;
    (eapply shaped_rewrites_cell; [exact H0|]).
  - eapply rewrites_cell_store_V; eauto.
  - eapply rewrites_cell_store_yC; eauto.
Qed.

Section Learning.

Variable NB_ATOMS : nat.
Variable atoms : list Q.
Variables beta gamma eps : Q.
Variable ACTIONS : list Z.
Variable Rng : Type.
Variable np_random : Rng -> Q * Rng.
Variable np_choice : list Z -> Rng -> Z * Rng.
Variable w : World Rng.
Variables h wd n : nat.

Local Abbreviation ok := (shaped NB_ATOMS h wd n).

Lemma episode_step_shaped c c' :
  ok (cfg_Q c) ->
  episode_step NB_ATOMS atoms beta gamma eps ACTIONS np_random np_choice w c = Ret c' ->
  ok (cfg_Q c').
Proof.
  intros Hc Hs.
  destruct (episode_step_Ret NB_ATOMS atoms beta gamma eps ACTIONS Rng np_random np_choice
              w c c' Hs) as (greedy & a & g1 & t & g2 & T' & _ & _ & _ & Hu & ->).
  simpl. eapply keeps_shaped_update; eauto.
Qed.

Lemma episode_loop_shaped fuel :
  forall c c',
    ok (cfg_Q c) ->
    episode_loop NB_ATOMS atoms beta gamma eps ACTIONS np_random np_choice w fuel c = Ret c' ->
    ok (cfg_Q c').
Proof.
  induction fuel as [|fuel IH]; intros c c' Hc; simpl.
  - intros [= <-]. exact Hc.
  - destruct (existsb _ _); [intros [= <-]; exact Hc|].
    destruct (episode_step _ _ _ _ _ _ _ _ _ c) as [c1|] eqn:Es; [|discriminate].
    simpl. apply IH. eapply episode_step_shaped; eauto.
Qed.

Lemma episode_shaped alpha len T g c' :
  ok T ->
  episode NB_ATOMS atoms beta gamma eps ACTIONS np_random np_choice w alpha len T g = Ret c' ->
  ok (cfg_Q c').
Proof.
  intros HT. unfold episode.
  destruct (episode_start _ _ _ _ _ _ _ T g) as [c0|] eqn:Es; [|discriminate]. simpl.
  apply episode_loop_shaped.
  apply episode_start_Ret in Es.
  destruct Es as (greedy & a & g1 & s0 & _ & _ & _ & ->). exact HT.
Qed.

Lemma episodes_shaped alpha len k :
  forall T g T' g',
    ok T ->
    episodes NB_ATOMS atoms beta gamma eps ACTIONS np_random np_choice w alpha len k T g
    = Ret (T', g') ->
    ok T'.
Proof.
  induction k as [|k IH]; intros T g T' g' HT; simpl.
  - intros [= <- _]. exact HT.
  - destruct (episode _ _ _ _ _ _ _ _ _ _ _ T g) as [c|] eqn:Ee; [|discriminate]. simpl.
    apply IH. eapply episode_shaped; eauto.
Qed.

End Learning.

(** Whenever [q_learning] (lines 130-154) returns, its table has the
    world's height and width, one cell per action, and [NB_ATOMS] quantile
    and CVaR entries in every cell, whatever the transitions and the random
    draws were. *)
Theorem q_learning_table_shape (NB_ATOMS : nat) (atoms : list Q) (beta gamma eps : Q)
  (ACTIONS : list Z) (Rng : Type) (np_random : Rng -> Q * Rng)
  (np_choice : list Z -> Rng -> Z * Rng) (w : World Rng) (alpha : Q)
  (max_episodes max_episode_length : nat) (g : Rng) (T : Table) (g' : Rng) :
  q_learning NB_ATOMS atoms beta gamma eps ACTIONS np_random np_choice w alpha
             max_episodes max_episode_length g = Ret (T, g') ->
  shaped NB_ATOMS (height w) (width w) (length ACTIONS) T.
Proof.
  unfold q_learning. intros H.
  eapply episodes_shaped; [|exact H]. apply shaped_init.
Qed.

Lemma q_learning_table_shape_witness :
  match q_learning 2 atoms2 (1#10) (95#100) (1#10) [0%Z] still_random first_choice corridor
                   (1#10) 3 100 0%nat with
  | Ret (T, _) => shaped 2 (height corridor) (width corridor) (length [0%Z]) T
  | Raise _ => False
  end.
Proof.
  pose proof (q_learning_table_shape 2 atoms2 (1#10) (95#100) (1#10) [0%Z] nat
                still_random first_choice corridor (1#10) 3 100 0%nat) as H.
  destruct (q_learning 2 atoms2 (1#10) (95#100) (1#10) [0%Z] still_random first_choice
              corridor (1#10) 3 100 0%nat) as [[T g']|e] eqn:E.
  - exact (H T g' eq_refl).
  - vm_compute in E. discriminate E.
Defined.

(** ** One iteration of the learning loop *)

Lemma shaped_cells NB h w (ACTIONS : list Z) T (x : State) :
  shaped NB h w (length ACTIONS) T ->
  Forall (indexes (length ACTIONS)) ACTIONS ->
  indexes h (st_y x) -> indexes w (st_x x) ->
  exists cells,
    omap (fun a => Q_get T (st_y x) (st_x x) a) ACTIONS = Ret cells /\
    length cells = length ACTIONS.
Proof.
  intros HT Hacts Hy Hx.
  assert (H : exists cells, omap (fun a => Q_get T (st_y x) (st_x x) a) ACTIONS = Ret cells).
  { apply omap_Ret_iff. eapply Forall_impl; [|exact Hacts]. intros a Ha.
    destruct (shaped_Q_get _ _ _ _ _ _ _ _ HT Hy Hx Ha) as (ms & Hms & _). eauto. }
  destruct H as (cells & Hc). exists cells. split; [exact Hc|].
  eapply omap_length; eauto.
Qed.

(** One iteration of the inner loop of [q_learning] (lines 142-149), on a
    table of the right shape at a state in the grid, with every action a
    valid index of the action axis, an environment whose transitions stay in
    the grid and a [np.random.choice] that draws from the list it is given: the
    iteration completes, or the assertion of [update] fails; no index or
    value error can arise. *)
Theorem episode_step_only_asserts (NB_ATOMS : nat) (atoms : list Q) (beta gamma eps : Q)
  (ACTIONS : list Z) (Rng : Type) (np_random : Rng -> Q * Rng)
  (np_choice : list Z -> Rng -> Z * Rng) (w : World Rng) (c : Config Rng) :
  shaped NB_ATOMS (height w) (width w) (length ACTIONS) (cfg_Q c) ->
  (1 <= NB_ATOMS)%nat ->
  length atoms = S NB_ATOMS ->
  ACTIONS <> [] ->
  Forall (indexes (length ACTIONS)) ACTIONS ->
  (forall l g, l <> [] -> In (fst (np_choice l g)) l) ->
  (forall s a g, indexes (height w) (st_y (t_state (fst (sample_transition w s a g)))) /\
                 indexes (width w) (st_x (t_state (fst (sample_transition w s a g))))) ->
  indexes (height w) (st_y (cfg_x c)) ->
  indexes (width w) (st_x (cfg_x c)) ->
  (exists c', episode_step NB_ATOMS atoms beta gamma eps ACTIONS np_random np_choice w c
              = Ret c') \/
  episode_step NB_ATOMS atoms beta gamma eps ACTIONS np_random np_choice w c
  = Raise AssertionError.
Proof.
  intros HT H1 Hat Hne Hacts Hchoice Hworld Hy Hx.
  destruct (shaped_cells _ _ _ _ _ _ HT Hacts Hy Hx) as (cells & Hcells & Hlen).
  assert (Hcne : cells <> []) by (destruct cells, ACTIONS; simpl in *; congruence).
  destruct (argmax_of_cells (fun ms => e_min_s atoms ms (cfg_s c)) cells Hcne)
    as (r & best & Hr & Hlt & _).
  assert (Hgreedy : next_action_s atoms ACTIONS (cfg_Q c) (cfg_x c) (cfg_s c)
                    = Ret (Z.of_nat r)).
  { unfold next_action_s.
    rewrite (omap_then _ _ (fun ms => e_min_s atoms ms (cfg_s c)) _ _ Hcells); [exact Hr|].
    apply Forall_forall. reflexivity. }
  unfold episode_step. rewrite Hgreedy. simpl obind.
  assert (Ha : exists a g1,
            eps_greedy eps np_random np_choice (Z.of_nat r) ACTIONS (cfg_rng c) = (Ret a, g1) /\
            indexes (length ACTIONS) a).
  { unfold eps_greedy. destruct (np_random (cfg_rng c)) as [u g1].
    destruct (Qltb u eps).
    - destruct ACTIONS as [|a0 rest] eqn:EA; [congruence|].
      pose proof (Hchoice (a0 :: rest) g1 ltac:(discriminate)) as Hin.
      destruct (np_choice (a0 :: rest) g1) as [ch g2]. simpl in Hin.
      exists ch, g2. split; [reflexivity|].
      rewrite Forall_forall in Hacts. apply Hacts. exact Hin.
    - exists (Z.of_nat r), g1. split; [reflexivity|]. unfold indexes. lia. }
  destruct Ha as (a & g1 & -> & Hia).
  pose proof (Hworld (cfg_x c) a g1) as [Hy' Hx'].
  destruct (sample_transition w (cfg_x c) a g1) as [t g2]. simpl in Hy', Hx'.
  destruct (shaped_sup_q_returns _ _ _ atoms _ _ (t_state t) HT Hne Hacts Hy' Hx')
    as (V_x & Hs).
  destruct (shaped_Q_get _ _ _ _ _ _ _ _ HT Hy Hx Hia) as (ms & Hg & Hms).
  destruct (update_returns_or_asserts NB_ATOMS atoms beta gamma ACTIONS (cfg_x c) a
              (t_state t) (t_reward t) (cfg_Q c) ms V_x H1 Hat Hs Hg Hms) as (T' & [-> | ->]).
  - left. eauto.
  - right. reflexivity.
Qed.

Lemma episode_step_only_asserts_witness :
  (exists c', episode_step 2 atoms2 (1#10) (95#100) (1#10) [0%Z] still_random first_choice
                corridor (mkConfig table_1x2 0%nat origin 0) = Ret c') \/
  episode_step 2 atoms2 (1#10) (95#100) (1#10) [0%Z] still_random first_choice
    corridor (mkConfig table_1x2 0%nat origin 0) = Raise AssertionError.
Proof.
  apply (episode_step_only_asserts 2 atoms2 (1#10) (95#100) (1#10) [0%Z] nat
           still_random first_choice corridor (mkConfig table_1x2 0%nat origin 0)).
  - split; [reflexivity|]. repeat constructor.
  - lia.
  - reflexivity.
  - discriminate.
  - repeat constructor; simpl; lia.
  - intros l g Hl. destruct l; [congruence | left; reflexivity].
  - intros s a g. split; split; simpl; lia.
  - split; simpl; lia.
  - split; simpl; lia.
Defined.
